(** * Hybrid timeline engine (chapter1/twitter-poc)

    A shallow embedding of the write path ([POST /tweet]), the fan-out
    worker and the read path ([GET /timeline/:userId]) of the hybrid
    timeline proof of concept, together with the properties of its
    specification.

    The three external services are modelled by their contents:
    - PostgreSQL by the three tables of [db.ts] ([users], [follows],
      [tweets]) and the [SERIAL] sequence of [tweets.id];
    - Redis by a finite map from keys to lists of strings;
    - RabbitMQ by the list of messages of the queue [tweet_fanout].
    Every awaited call on one of them is an I/O step that the environment
    may fail; a failed call throws, as a rejected promise does under
    [await]. *)

From Stdlib Require Import ZArith List Bool Ascii String Lia.
From Stdlib Require Import DecimalString DecimalZ.
From Stdlib Require Import Sorting.Sorted Sorting.Permutation.
From stdpp Require Import base option list gmap strings.

Import ListNotations.
Local Open Scope string_scope.
Local Open Scope list_scope.
Local Open Scope Z_scope.

(** ** Configuration (db.ts) *)

Definition CELEBRITY_THRESHOLD : Z := 5.
Definition QUEUE_NAME : string := "tweet_fanout".

(** ** Request values *)

(** The fields of a parsed JSON body. [JUndefined] is a missing field.
    Numbers are the integers; an object or an array is opaque. *)
Inductive JsVal : Type :=
  | JUndefined
  | JNull
  | JBool (b : bool)
  | JNum (n : Z)
  | JStr (s : string)
  | JObj.

(** JavaScript's [ToBoolean], as used by [!userId || !text]. *)
Definition truthy (v : JsVal) : bool :=
  match v with
  | JUndefined | JNull => false
  | JBool b => b
  | JNum n => negb (n =? 0)
  | JStr s => negb (String.eqb s "")
  | JObj => true
  end.

(** [Number.prototype.toString] on an integer: decimal digits, with a
    leading minus sign for a negative number. *)
Definition js_toString (n : Z) : string :=
  NilZero.string_of_int (Z.to_int n).

(** PostgreSQL's input conversion of a text parameter to [INTEGER], on
    the decimal form that [toString] writes: an optional minus sign
    followed by decimal digits. A text that is not a number is rejected
    by the server ("invalid input syntax for type integer"). *)
Definition pg_int4_in (s : string) : option Z :=
  option_map Z.of_int (NilZero.int_of_string s).

(** The values of the type [INTEGER]. The server refuses a parameter
    outside of them ("value out of range for type integer"); what is
    stated about the answer for an id that is not in the store is stated
    for an id within. *)
Definition int4_range (n : Z) : Prop := -2147483648 <= n <= 2147483647.

(** A query parameter compared with, or stored into, an [INTEGER]
    column. *)
Definition pg_param_int (v : JsVal) : option Z :=
  match v with
  | JNum n => Some n
  | JStr s => pg_int4_in s
  | _ => None
  end.

(** A query parameter stored into a [TEXT] column. *)
Definition pg_param_text (v : JsVal) : option string :=
  match v with
  | JStr s => Some s
  | JNum n => Some (js_toString n)
  | JBool true => Some "true"
  | JBool false => Some "false"
  | JObj => Some "[object]"
  | JUndefined | JNull => None
  end.

(** ** The durable store *)

(** [interface Tweet] of index.ts; [timestamp] is the [Date] in
    milliseconds, which is what [getTime()] returns. *)
Record Tweet : Type := mkTweet {
  id : Z;
  sender_id : Z;
  text : string;
  timestamp : Z
}.

#[global] Instance Tweet_eq_dec : EqDecision Tweet.
Proof. solve_decision. Defined.

(** A row of [follows]: [(follower_id, followee_id)]. *)
Definition Follow : Type := (Z * Z)%type.
Definition follower_id (f : Follow) : Z := fst f.
Definition followee_id (f : Follow) : Z := snd f.

Record Db : Type := mkDb {
  users : list Z;          (* users.id *)
  follows : list Follow;
  tweets : list Tweet;     (* in insertion order *)
  next_id : Z              (* the sequence behind tweets.id *)
}.

(** A stable insertion sort: the model of [Array.prototype.sort], which
    is stable, under a comparator [cmp a b] whose sign orders [a] and
    [b]. An element moves behind another one only when the comparator is
    strictly positive. *)
Fixpoint sort_insert {A} (cmp : A -> A -> Z) (x : A) (l : list A) : list A :=
  match l with
  | [] => [x]
  | y :: r => if 0 <? cmp x y then y :: sort_insert cmp x r else x :: y :: r
  end.

Fixpoint js_sort {A} (cmp : A -> A -> Z) (l : list A) : list A :=
  match l with
  | [] => []
  | x :: r => sort_insert cmp x (js_sort cmp r)
  end.

(** [(a, b) => new Date(b.timestamp).getTime() - new Date(a.timestamp).getTime()] *)
Definition by_timestamp_desc (a b : Tweet) : Z := timestamp b - timestamp a.

(** [ORDER BY timestamp DESC]; rows with equal timestamps keep the order
    of the table scan. *)
Definition order_by_timestamp_desc (rows : list Tweet) : list Tweet :=
  js_sort by_timestamp_desc rows.

(** [SELECT COUNT( * ) FROM follows WHERE followee_id = $1] *)
Definition follower_rows (d : Db) (u : Z) : list Follow :=
  List.filter (fun f => followee_id f =? u) (follows d).

Definition count_followers (d : Db) (u : Z) : Z :=
  Z.of_nat (length (follower_rows d u)).

(** [SELECT follower_id FROM follows WHERE followee_id = $1] *)
Definition list_follower_ids (d : Db) (u : Z) : list Z :=
  List.map follower_id (follower_rows d u).

(** [SELECT id FROM users WHERE id = $1]: the rows found. *)
Definition select_user (d : Db) (u : Z) : list Z :=
  List.filter (fun x => x =? u) (users d).

(** [id = ANY(ids)] *)
Definition in_ids (ids : list Z) (t : Tweet) : bool :=
  existsb (Z.eqb (id t)) ids.

(** [SELECT ... FROM tweets WHERE id = ANY($1::int[]) ORDER BY timestamp DESC] *)
Definition select_tweets_by_ids (d : Db) (ids : list Z) : list Tweet :=
  order_by_timestamp_desc (List.filter (in_ids ids) (tweets d)).

(** The join of the celebrity query: one row per pair of a tweet and a
    [follows] row with [t.sender_id = f.followee_id]. *)
Definition join_follows (d : Db) (t : Tweet) : list Follow :=
  List.filter (fun f => sender_id t =? followee_id f) (follows d).

(** [SELECT t.* FROM tweets t INNER JOIN follows f ON t.sender_id = f.followee_id
     WHERE f.follower_id = $1
       AND (SELECT COUNT( * ) FROM follows WHERE followee_id = t.sender_id) >= $2
     ORDER BY t.timestamp DESC LIMIT 20] *)
Definition select_celebrity_tweets (d : Db) (u threshold : Z) : list Tweet :=
  take 20
    (order_by_timestamp_desc
       (flat_map
          (fun t =>
             List.map (fun _ => t)
               (List.filter
                  (fun f => (follower_id f =? u)
                            && (threshold <=? count_followers d (sender_id t)))
                  (join_follows d t)))
          (tweets d))).

(** ** The cache *)

(** The slice of a list between two Redis indexes, both inclusive; a
    negative index counts from the end of the list ([LRANGE], [LTRIM]). *)
Definition redis_slice {A} (l : list A) (start stop : Z) : list A :=
  let llen := Z.of_nat (length l) in
  let start := if start <? 0 then llen + start else start in
  let stop := if stop <? 0 then llen + stop else stop in
  let start := if start <? 0 then 0 else start in
  if (stop <? start) || (llen <=? start) then []
  else
    let stop := if llen <=? stop then llen - 1 else stop in
    take (Z.to_nat (stop - start + 1)) (drop (Z.to_nat start) l).

Abbreviation Redis := (gmap string (list string)).

Definition redis_get (r : Redis) (key : string) : list string :=
  default [] (r !! key).

(** A key whose list becomes empty is removed. *)
Definition redis_set (r : Redis) (key : string) (l : list string) : Redis :=
  match l with
  | [] => delete key r
  | _ => <[key := l]> r
  end.

Definition redis_lPush (r : Redis) (key v : string) : Redis :=
  redis_set r key (v :: redis_get r key).

Definition redis_lTrim (r : Redis) (key : string) (start stop : Z) : Redis :=
  redis_set r key (redis_slice (redis_get r key) start stop).

Definition redis_lRange (r : Redis) (key : string) (start stop : Z) : list string :=
  redis_slice (redis_get r key) start stop.

(** ** The delivery channel *)

(** The message of the queue: [{ tweetId, followers }]. *)
Record Job : Type := mkJob {
  tweetId : Z;
  followers : list Z
}.

#[global] Instance Job_eq_dec : EqDecision Job.
Proof. solve_decision. Defined.

(** ** Worlds, environments and the monad of the handlers *)

Inductive Error : Type :=
  | StoreError      (* a query of [pool] is rejected *)
  | CacheError      (* a command of [redisClient] is rejected *)
  | ChannelError    (* the channel cannot be opened or written *)
  | ConfigError.    (* RABBITMQ_URL is not defined *)

(** One entry per call on an external service, in the order of the
    calls. *)
Inductive Event : Type :=
  | InsertTweet (t : Tweet)
  | CountFollowers (u : Z)
  | ListFollowers (u : Z)
  | SelectUser (u : Z)
  | SelectTweetsByIds (ids : list Z)
  | SelectCelebrityTweets (u : Z)
  | Connect
  | SendToQueue (j : Job)
  | LRange (key : string)
  | LPush (key v : string)
  | LTrim (key : string)
  | Failed (e : Error).

#[global] Instance Error_eq_dec : EqDecision Error.
Proof. solve_decision. Defined.

#[global] Instance Event_eq_dec : EqDecision Event.
Proof. solve_decision. Defined.

Record World : Type := mkWorld {
  db : Db;
  redis : Redis;
  queue : list Job;     (* the messages of [QUEUE_NAME], oldest first *)
  channel : bool;       (* the singleton of [connectRabbitMQ] is set *)
  calls : nat;          (* how many calls were made so far *)
  log : list Event      (* what they were, oldest first *)
}.

(** What the handlers do not control: which call fails, what time the
    store reads on its clock, and the process environment. Calls are
    numbered in the order in which they are made. *)
Record Env : Type := mkEnv {
  fault : nat -> bool;
  now : nat -> Z;
  rabbitmq_url : bool
}.

Inductive Outcome (A : Type) : Type :=
  | Ok (a : A)
  | Throw (e : Error).
Arguments Ok {A} a.
Arguments Throw {A} e.

Definition IO (A : Type) : Type := Env -> World -> Outcome A * World.

Definition io_ret {A} (a : A) : IO A := fun _ w => (Ok a, w).

Definition io_bind {A B} (m : IO A) (k : A -> IO B) : IO B :=
  fun env w =>
    match m env w with
    | (Ok a, w') => k a env w'
    | (Throw e, w') => (Throw e, w')
    end.

Definition throw {A} (e : Error) : IO A := fun _ w => (Throw e, w).

(** [try { m } catch (error) { h error }] *)
Definition try_catch {A} (m : IO A) (h : Error -> IO A) : IO A :=
  fun env w =>
    match m env w with
    | (Ok a, w') => (Ok a, w')
    | (Throw e, w') => h e env w'
    end.

Notation "'let!' x ':=' m 'in' k" := (io_bind m (fun x => k))
  (at level 10, x name, m at level 100, k at level 200).
Notation "m ';;' k" := (io_bind m (fun _ => k))
  (at level 100, k at level 200, right associativity).

Definition log_event (ev : Event) (w : World) : World :=
  mkWorld (db w) (redis w) (queue w) (channel w) (S (calls w)) (log w ++ [ev]).

Definition set_db (d : Db) (w : World) : World :=
  mkWorld d (redis w) (queue w) (channel w) (calls w) (log w).

Definition set_redis (r : Redis) (w : World) : World :=
  mkWorld (db w) r (queue w) (channel w) (calls w) (log w).

Definition set_queue (q : list Job) (w : World) : World :=
  mkWorld (db w) (redis w) q (channel w) (calls w) (log w).

Definition set_channel (c : bool) (w : World) : World :=
  mkWorld (db w) (redis w) (queue w) c (calls w) (log w).

(** An awaited call. The environment may fail it; otherwise [act] is
    given the time and either answers, with the entry to log, or rejects
    the call. Either way it returns the world it leaves. *)
Definition io {A} (err : Error)
    (act : Z -> World -> option (A * Event) * World) : IO A :=
  fun env w =>
    let n := calls w in
    if fault env n then (Throw err, log_event (Failed err) w)
    else
      match act (now env n) w with
      | (Some (a, ev), w') => (Ok a, log_event ev w')
      | (None, w') => (Throw err, log_event (Failed err) w')
      end.

(** *** Calls on the store ([pool.query]) *)

(** [INSERT INTO tweets (sender_id, text) VALUES ($1, $2) RETURNING ...].
    The row takes the next value of the sequence and the current time.
    [sender_id] references [users]: the insert of a sender that is not a
    user is rejected, and the value of the sequence is consumed all the
    same. *)
Definition db_insert_tweet (userId text : JsVal) : IO Tweet :=
  io StoreError (fun time w =>
    match pg_param_int userId, pg_param_text text with
    | Some u, Some txt =>
        let d := db w in
        let t := mkTweet (next_id d) u txt time in
        if existsb (Z.eqb u) (users d) then
          (Some (t, InsertTweet t),
           set_db (mkDb (users d) (follows d) (tweets d ++ [t]) (next_id d + 1)) w)
        else
          (None,
           set_db (mkDb (users d) (follows d) (tweets d) (next_id d + 1)) w)
    | _, _ => (None, w)
    end).

Definition db_count_followers (userId : JsVal) : IO Z :=
  io StoreError (fun _ w =>
    match pg_param_int userId with
    | Some u => (Some (count_followers (db w) u, CountFollowers u), w)
    | None => (None, w)
    end).

Definition db_list_followers (userId : JsVal) : IO (list Z) :=
  io StoreError (fun _ w =>
    match pg_param_int userId with
    | Some u => (Some (list_follower_ids (db w) u, ListFollowers u), w)
    | None => (None, w)
    end).

Definition db_select_user (userId : JsVal) : IO (list Z) :=
  io StoreError (fun _ w =>
    match pg_param_int userId with
    | Some u => (Some (select_user (db w) u, SelectUser u), w)
    | None => (None, w)
    end).

(** The cast [$1::int[]] of an array of strings: every element has to be
    an integer. *)
Definition pg_int4_array_in (l : list string) : option (list Z) :=
  mapM pg_int4_in l.

Definition db_select_tweets_by_ids (ids : list string) : IO (list Tweet) :=
  io StoreError (fun _ w =>
    match pg_int4_array_in ids with
    | Some l => (Some (select_tweets_by_ids (db w) l, SelectTweetsByIds l), w)
    | None => (None, w)
    end).

Definition db_select_celebrity_tweets (userId : JsVal) (threshold : Z)
  : IO (list Tweet) :=
  io StoreError (fun _ w =>
    match pg_param_int userId with
    | Some u =>
        (Some (select_celebrity_tweets (db w) u threshold,
               SelectCelebrityTweets u), w)
    | None => (None, w)
    end).

(** *** Calls on the cache ([redisClient]) *)

Definition lRange (key : string) (start stop : Z) : IO (list string) :=
  io CacheError (fun _ w =>
    (Some (redis_lRange (redis w) key start stop, LRange key), w)).

Definition lPush (key v : string) : IO unit :=
  io CacheError (fun _ w =>
    (Some (tt, LPush key v), set_redis (redis_lPush (redis w) key v) w)).

Definition lTrim (key : string) (start stop : Z) : IO unit :=
  io CacheError (fun _ w =>
    (Some (tt, LTrim key),
     set_redis (redis_lTrim (redis w) key start stop) w)).

(** *** Calls on the channel *)

(** [connectRabbitMQ] of db.ts: the channel is opened once and kept. *)
Definition connectRabbitMQ : IO unit :=
  fun env w =>
    if channel w then (Ok tt, w)
    else if negb (rabbitmq_url env) then (Throw ConfigError, w)
    else io ChannelError (fun _ w => (Some (tt, Connect), set_channel true w))
           env w.

(** [channel.sendToQueue(QUEUE_NAME, Buffer.from(JSON.stringify(message)),
    { persistent: true })] *)
Definition sendToQueue (message : Job) : IO unit :=
  io ChannelError (fun _ w =>
    (Some (tt, SendToQueue message), set_queue (queue w ++ [message]) w)).

(** ** The write path: [POST /tweet] *)

(** [req.body] as [express.json()] leaves it: an object, of which the
    handler reads two fields. *)
Record TweetRequest : Type := mkTweetRequest {
  req_userId : JsVal;
  req_text : JsVal
}.

Record Stats : Type := mkStats {
  stat_cachedTweets : nat;
  stat_celebrityTweets : nat;
  stat_totalUnique : nat;
  stat_returned : nat
}.

Inductive Response : Type :=
  | Json400 (error : string)
  | Json404 (error : string)
  | Json500 (error : string)
  (* { success: true, tweet, isCelebrity, followerCount } *)
  | TweetJson (tweet : Tweet) (isCelebrity : bool) (followerCount : Z)
  (* { userId, timeline, stats } *)
  | TimelineJson (userId : string) (timeline : list Tweet) (stats : Stats).

Definition post_tweet (body : TweetRequest) : IO Response :=
  try_catch
    (let userId := req_userId body in
     let text := req_text body in
     if negb (truthy userId) || negb (truthy text) then
       io_ret (Json400 "userId and text are required")
     else
       (* Save tweet to Postgres *)
       let! tweet := db_insert_tweet userId text in
       (* Check follower count *)
       let! followerCount := db_count_followers userId in
       (* Hybrid Logic: Fan-out only for non-celebrities *)
       (if followerCount <? CELEBRITY_THRESHOLD then
          let! followersResult := db_list_followers userId in
          connectRabbitMQ ;;
          sendToQueue (mkJob (id tweet) followersResult)
        else io_ret tt) ;;
       io_ret (TweetJson tweet (CELEBRITY_THRESHOLD <=? followerCount)
                 followerCount))
    (fun _ => io_ret (Json500 "Internal server error")).

(** ** The fan-out worker (worker.ts) *)

(** [`timeline:${id}`] *)
Definition timelineKey (id : string) : string := "timeline:" +:+ id.

(** The loop over [followers]: push the tweet id to the front of the
    follower's list, then keep its first twenty entries. *)
Fixpoint fan_out (tweetId : Z) (followers : list Z) : IO unit :=
  match followers with
  | [] => io_ret tt
  | followerId :: rest =>
      let timelineKey := timelineKey (js_toString followerId) in
      lPush timelineKey (js_toString tweetId) ;;
      lTrim timelineKey 0 19 ;;
      fan_out tweetId rest
  end.

(** What the callback tells the channel about the message. *)
Inductive Verdict : Type :=
  | Ack                              (* channel.ack(msg) *)
  | Nack (allUpTo requeue : bool).   (* channel.nack(msg, allUpTo, requeue) *)

#[global] Instance Verdict_eq_dec : EqDecision Verdict.
Proof. solve_decision. Defined.

(** The callback of [channel.consume]; [None] is the null message of a
    cancelled consumer, for which nothing is done. *)
Definition on_message (msg : option Job) : IO (option Verdict) :=
  match msg with
  | None => io_ret None
  | Some message =>
      try_catch
        (fan_out (tweetId message) (followers message) ;;
         (* Acknowledge the message, i.e., mark as processed *)
         io_ret (Some Ack))
        (fun _ =>
           (* Reject and requeue the message *)
           io_ret (Some (Nack false true)))
  end.

(** One delivery of the channel, with manual acknowledgement
    ([noAck: false]): the oldest message is handed to the callback; it
    leaves the queue when it is acknowledged and returns to its place when
    it is rejected with [requeue]. *)
Definition settle (message : Job) (v : option Verdict) (w : World) : World :=
  match v with
  | Some Ack => w
  | Some (Nack _ true) => set_queue (message :: queue w) w
  | Some (Nack _ false) => w
  | None => set_queue (message :: queue w) w
  end.

Definition deliver (env : Env) (w : World) : option Verdict * World :=
  match queue w with
  | [] => (None, w)
  | message :: rest =>
      match on_message (Some message) env (set_queue rest w) with
      | (Ok v, w') => (v, settle message v w')
      | (Throw _, w') => (None, settle message None w')
      end
  end.

(** The worker handles one delivery after the other: the verdicts of the
    first [n] deliveries and the world after them. *)
Fixpoint deliveries (n : nat) (env : Env) (w : World)
  : list (option Verdict) * World :=
  match n with
  | O => ([], w)
  | S n' =>
      let (v, w1) := deliver env w in
      let (vs, w') := deliveries n' env w1 in
      (v :: vs, w')
  end.

(** ** The read path: [GET /timeline/:userId] *)

(** A JavaScript [Map] keeps its keys in the order of their first
    insertion; setting a key that is present replaces its value in
    place. *)
Fixpoint map_set {V} (k : Z) (v : V) (m : list (Z * V)) : list (Z * V) :=
  match m with
  | [] => [(k, v)]
  | (k', v') :: r => if k =? k' then (k, v) :: r else (k', v') :: map_set k v r
  end.

(** [new Map(entries)] *)
Definition new_Map {V} (entries : list (Z * V)) : list (Z * V) :=
  fold_left (fun m kv => map_set (fst kv) (snd kv) m) entries [].

(** [Array.from(m.values())] *)
Definition map_values {V} (m : list (Z * V)) : list V := List.map snd m.

(** [tweet => [tweet.id, tweet]] *)
Definition entry (tweet : Tweet) : Z * Tweet := (id tweet, tweet).

(** [Array.from(new Map(allTweets.map(tweet => [tweet.id, tweet])).values())] *)
Definition uniqueTweets (allTweets : list Tweet) : list Tweet :=
  map_values (new_Map (List.map entry allTweets)).

(** Step C of the handler, from [allTweets] to [timeline]. *)
Definition merge_timeline (cachedTweets celebrityTweets : list Tweet)
  : list Tweet :=
  let allTweets := cachedTweets ++ celebrityTweets in
  (* Remove duplicates *)
  let uniqueTweets := uniqueTweets allTweets in
  (* Sort by timestamp descending *)
  let uniqueTweets := js_sort by_timestamp_desc uniqueTweets in
  (* Take top 20 *)
  take 20 uniqueTweets.

Definition fetchTweetIdsFromRedis (userId : string) : IO (list Tweet) :=
  try_catch
    (let! cachedTweetIds := lRange (timelineKey userId) 0 (-1) in
     if (0 <? length cachedTweetIds)%nat then
       db_select_tweets_by_ids cachedTweetIds
     else io_ret [])
    (fun error => throw error).

Definition fetchCelebrityTweetsFromDB (userId : string) : IO (list Tweet) :=
  try_catch
    (db_select_celebrity_tweets (JStr userId) CELEBRITY_THRESHOLD)
    (fun error => throw error).

Definition get_timeline (userId : string) : IO Response :=
  try_catch
    ((* Check if userId is provided *)
     if String.eqb userId "" then io_ret (Json400 "userId is required")
     else
       (* Check if user exists *)
       let! userCheckResult := db_select_user (JStr userId) in
       if (length userCheckResult =? 0)%nat then
         io_ret (Json404 "User not found")
       else
         (* Step A: Fetch tweet IDs from Redis cache *)
         let! cachedTweets := fetchTweetIdsFromRedis userId in
         (* Step B: Query celebrity tweets *)
         let! celebrityTweets := fetchCelebrityTweetsFromDB userId in
         (* Step C: Merge and sort *)
         let timeline := merge_timeline cachedTweets celebrityTweets in
         io_ret
           (TimelineJson userId timeline
              (mkStats (length cachedTweets) (length celebrityTweets)
                 (length (uniqueTweets (cachedTweets ++ celebrityTweets)))
                 (length timeline))))
    (fun _ => io_ret (Json500 "Internal server error")).

(** ** Vocabulary of the properties *)

(** The value under a key of a [Map]. *)
Definition map_get {V} (k : Z) (m : list (Z * V)) : option V :=
  option_map snd (List.find (fun kv => fst kv =? k) m).


(** The last tweet of a list that has a given id. *)
Definition last_with_id (i : Z) (l : list Tweet) : option Tweet :=
  List.find (fun t => id t =? i) (rev l).


(** A follower of the message whose list is under [key]. *)
Definition targets (key : string) (followers : list Z) : bool :=
  existsb (fun f => String.eqb (timelineKey (js_toString f)) key) followers.







(** The page of a response; a response without a page shows no tweet. *)
Definition page_of (r : Outcome Response) : list Tweet :=
  match r with
  | Ok (TimelineJson _ timeline _) => timeline
  | _ => []
  end.

Definition timeline_page (env : Env) (userId : string) (w : World)
  : list Tweet :=
  page_of (fst (get_timeline userId env w)).

(** The page of a consumer as a function of the store and of the list
    of the consumer in the cache, when no call fails. *)
Definition page_from (d : Db) (userId : string) (cachedTweetIds : list string)
  : list Tweet :=
  match pg_int4_in userId with
  | Some u =>
      if existsb (Z.eqb u) (users d) then
        match pg_int4_array_in cachedTweetIds with
        | Some ids =>
            merge_timeline (select_tweets_by_ids d ids)
              (select_celebrity_tweets d u CELEBRITY_THRESHOLD)
        | None => []
        end
      else []
  | None => []
  end.

(** The commands that the worker sends to the cache. *)
Inductive RedisCmd : Type :=
  | CmdLPush (key v : string)
  | CmdLTrim (key : string) (start stop : Z).

Definition run_cmd (r : Redis) (c : RedisCmd) : Redis :=
  match c with
  | CmdLPush key v => redis_lPush r key v
  | CmdLTrim key start stop => redis_lTrim r key start stop
  end.

Definition run_cmds (cmds : list RedisCmd) (r : Redis) : Redis :=
  fold_left run_cmd cmds r.

Definition cmd_event (c : RedisCmd) : Event :=
  match c with
  | CmdLPush key v => LPush key v
  | CmdLTrim key _ _ => LTrim key
  end.

(** One operation of the worker: the push and the trim of one iteration
    of its loop. *)
Definition push_trim_cmds (followerId tweetId : Z) : list RedisCmd :=
  let timelineKey := timelineKey (js_toString followerId) in
  [CmdLPush timelineKey (js_toString tweetId); CmdLTrim timelineKey 0 19].

(** The commands of a whole message, in the order of the loop. *)
Definition fan_out_cmds (tweetId : Z) (followers : list Z) : list RedisCmd :=
  flat_map (fun followerId => push_trim_cmds followerId tweetId) followers.

(** The commands of a sequence of operations, each given by the follower
    and the tweet. *)
Definition worker_ops_cmds (ops : list (Z * Z)) : list RedisCmd :=
  flat_map (fun op => push_trim_cmds (fst op) (snd op)) ops.

(** Of the next [n] calls, how many are made before one fails. *)
Fixpoint calls_ok (env : Env) (from n : nat) : nat :=
  match n with
  | O => O
  | S n' => if fault env from then O else S (calls_ok env (S from) n')
  end.

(** None of the [n] calls from call [from] on fails. *)
Definition no_fault (env : Env) (from n : nat) : Prop :=
  forall i, (from <= i < from + n)%nat -> fault env i = false.

(** No call fails. *)
Definition calm_env (env : Env) : Prop := forall n, fault env n = false.

(** Newest first. *)
Definition newest_first (l : list Tweet) : Prop :=
  StronglySorted (fun a b => timestamp b <= timestamp a) l.

(** ** Scenarios *)

Module Scenario.

(** Users 1..8. Producer 1 has three followers (2, 3, 4); producer 5 has
    six (2, 3, 4, 6, 7, 8). *)
Definition db0 : Db :=
  mkDb [1; 2; 3; 4; 5; 6; 7; 8]
       [(2, 1); (3, 1); (4, 1); (2, 5); (3, 5); (4, 5); (6, 5); (7, 5); (8, 5)]
       [] 101.

Definition w0 : World := mkWorld db0 ∅ [] true 0 [].

(** No call fails; the clock of the store shows the number of the call. *)
Definition calm : Env := mkEnv (fun _ => false) (fun n => Z.of_nat n) true.

(** The second call fails: for a timeline request of an existing user
    that is the read of the cache. *)
Definition cache_down : Env :=
  mkEnv (fun n => (n =? 1)%nat) (fun n => Z.of_nat n) true.

(** The third call fails: for the worker that is the push to the list
    of the second follower of a message. *)
Definition cache_flaky : Env :=
  mkEnv (fun n => (n =? 2)%nat) (fun n => Z.of_nat n) true.

(** Tweet 101 of producer 1 is posted and its message waits in the
    queue. *)
Definition tweet101 : Tweet := mkTweet 101 1 "hello" 0.

Definition w1 : World :=
  mkWorld (mkDb (users db0) (follows db0) [tweet101] 102) ∅
    [mkJob 101 [2; 3; 4]] true 0 [].

(** A store with an old tweet 200 of producer 1, twenty tweets 201..220
    that came after it, and tweet 221 of celebrity 5, the newest. The
    list of follower 2 in the cache is full: it holds 220 down to 201.
    The message of tweet 200 is delivered late. *)
Definition old_tweet : Tweet := mkTweet 200 1 "old" 0.

Definition recent_tweets : list Tweet :=
  List.map (fun n => mkTweet (200 + Z.of_nat n) 1 "recent" (Z.of_nat n))
    (seq 1 20).

Definition celebrity_tweet : Tweet := mkTweet 221 5 "star" 21.

Definition full_cache : Redis :=
  {[ "timeline:2" := List.map (fun t => js_toString (id t)) (rev recent_tweets) ]}.

Definition w_full : World :=
  mkWorld
    (mkDb (users db0) (follows db0)
       (old_tweet :: recent_tweets ++ [celebrity_tweet]) 222)
    full_cache [] true 0 [].


(** The same store and the same full list of follower 2, with two
    messages in the queue: tweet 222 for followers 2 and 3, then tweet
    223 for followers 3 and 2. *)
Definition w_busy : World :=
  mkWorld (db w_full) full_cache [mkJob 222 [2; 3]; mkJob 223 [3; 2]]
    true 0 [].

(** The seventh call fails: for [w_busy] that is the second push of the
    second message. *)
Definition seventh_fails : Env :=
  mkEnv (fun n => (n =? 6)%nat) (fun n => Z.of_nat n) true.

(** The eighth call fails: for [w_busy] that is the second trim of the
    second message. *)
Definition eighth_fails : Env :=
  mkEnv (fun n => (n =? 7)%nat) (fun n => Z.of_nat n) true.

(** Two records with the same id that differ in their text. *)
Definition cache_copy : Tweet := mkTweet 7 5 "from the cache" 3.
Definition celebrity_copy : Tweet := mkTweet 7 5 "from the query" 3.

End Scenario.


(** ** The route [GET /followers/:userId] *)

(** A row of the answer: [u.id, u.username]. *)
Definition UserRow : Type := (Z * string)%type.

Inductive FollowersResponse : Type :=
  | FollowersJson (followers : list UserRow)   (* { followers: result.rows } *)
  | Followers500 (error : string).

(** [ORDER BY u.id ASC] *)
Definition by_id_asc (a b : UserRow) : Z := fst a - fst b.

Section Directory.

(** The column [username] of [users], read through the primary key. *)
Variable username : Z -> string.

(** [SELECT u.id, u.username FROM users u
     INNER JOIN follows f ON u.id = f.follower_id
     WHERE f.followee_id = $1 ORDER BY u.id ASC]:
    one row per pair of a user and a [follows] row of that user to
    [$1]. *)
Definition select_followers (d : Db) (u : Z) : list UserRow :=
  js_sort by_id_asc
    (flat_map
       (fun x =>
          List.map (fun _ => (x, username x))
            (List.filter
               (fun f => (x =? follower_id f) && (followee_id f =? u))
               (follows d)))
       (users d)).

(** The query is logged as a listing of the followers of the user. *)
Definition db_select_followers (userId : JsVal) : IO (list UserRow) :=
  io StoreError (fun _ w =>
    match pg_param_int userId with
    | Some u => (Some (select_followers (db w) u, ListFollowers u), w)
    | None => (None, w)
    end).

Definition get_followers (userId : string) : IO FollowersResponse :=
  try_catch
    (let! result := db_select_followers (JStr userId) in
     io_ret (FollowersJson result))
    (fun _ => io_ret (Followers500 "Internal server error")).

End Directory.

(** Ascending. *)
Definition ascending (l : list Z) : Prop := StronglySorted Z.le l.

(** ** The seed (seed.ts) *)

(** The rows that [seed] inserts into [follows], in the order of its
    inserts, from the ids that the store assigned to the celebrity and to
    the normal users. [numFollowers] is the value of [Math.ceil(n * 0.6)].
    All the indexes are within the bounds of [normalUserIds] when it has
    two entries or more and [numFollowers] is at most its length. *)
Definition seed_follows (celebrityId : Z) (normalUserIds : list Z)
    (numFollowers : nat) : list Follow :=
  let n := length normalUserIds in
  let at_index i := nth i normalUserIds 0 in
  (* Celebrity follows 2 Normal users *)
  [(celebrityId, at_index 0%nat); (celebrityId, at_index 1%nat)]
  (* 60% of Normal users follow the Celebrity *)
  ++ List.map (fun i => (at_index i, celebrityId)) (seq 0 numFollowers)
  (* Normal users follow each other *)
  ++ flat_map
       (fun i =>
          List.map (fun j => (at_index i, at_index j))
            (seq (i + 1) (Nat.min n (i + 4) - (i + 1))))
       (seq 0 n).

(** The store after the seed: the new users and the new rows come after
    what was there. *)
Definition seeded (d : Db) (celebrityId : Z) (normalUserIds : list Z)
    (numFollowers : nat) : Db :=
  mkDb (users d ++ celebrityId :: normalUserIds)
       (follows d ++ seed_follows celebrityId normalUserIds numFollowers)
       (tweets d) (next_id d).

(** ** Vocabulary of the further properties *)

(** The ids of the tweets are distinct and below the next value of the
    sequence. *)
Definition store_ok (d : Db) : Prop :=
  (forall t, In t (tweets d) -> id t < next_id d)
  /\ List.NoDup (List.map id (tweets d)).

(** The key that a command of the worker is on. *)
Definition cmd_key (c : RedisCmd) : string :=
  match c with
  | CmdLPush key _ => key
  | CmdLTrim key _ _ => key
  end.

(** How many rows of a list point at [y]. *)
Definition followers_in (y : Z) (rows : list Follow) : nat :=
  length (List.filter (fun f => followee_id f =? y) rows).

(** One for an index in the three before [k], none for another. *)
Definition in_window (k i : nat) : nat :=
  if ((k <=? i + 3) && (i <? k))%nat then 1%nat else 0%nat.

(** A field that is present in the body and falsy all the same. *)
Definition falsy_present (v : JsVal) : Prop :=
  v = JNum 0 \/ v = JStr "" \/ v = JNull \/ v = JBool false.

Module Cases.
Import Scenario.

(** The second call fails: for a post that is the count of the
    followers. *)
Definition count_fails : Env :=
  mkEnv (fun n => (n =? 1)%nat) (fun n => Z.of_nat n) true.

(** Producer 1 posted tweet 101, the worker delivered it, and celebrity 5
    posted tweet 102. *)
Definition w_posted : World :=
  snd (post_tweet (mkTweetRequest (JNum 5) (JStr "yo")) calm
         (snd (deliver calm
                 (snd (post_tweet (mkTweetRequest (JNum 1) (JStr "hi"))
                         calm w0))))).

(** The fifth call fails: for the worker that is the push to the list
    of the third follower of a message. The calls after it succeed. *)
Definition third_push_fails : Env :=
  mkEnv (fun n => (n =? 4)%nat) (fun n => Z.of_nat n) true.

(** A process that has not opened the channel yet. *)
Definition w_closed : World := mkWorld db0 ∅ [] false 0 [].

Definition names (x : Z) : string := "user" +:+ js_toString x.

(** The ids of a seed of twenty normal users into [db0]: 9 for the
    celebrity, 10 to 29 for the others. *)
Definition seed_ids : list Z := List.map Z.of_nat (seq 10 20).

Definition tweet_hi : Tweet := mkTweet 101 1 "hi" 0.
Definition tweet_yo : Tweet := mkTweet 102 5 "yo" 10.

End Cases.

(** * Properties *)

(** ** Conversions *)

Lemma pg_int4_in_js_toString (n : Z) : pg_int4_in (js_toString n) = Some n.
Proof.
  unfold pg_int4_in, js_toString.
  rewrite NilZero.isi.
  - simpl. now rewrite DecimalZ.of_to.
  - destruct n; simpl; try discriminate. intros [= H].
    now apply DecimalPos.Unsigned.to_uint_nonnil in H.
  - destruct n; simpl; try discriminate. intros [= H].
    now apply DecimalPos.Unsigned.to_uint_nonnil in H.
Qed.

Lemma truthy_pg_param_text (v : JsVal) :
  truthy v = true -> exists s, pg_param_text v = Some s.
Proof. destruct v as [| |[]| | |]; simpl; intros; try discriminate; eauto. Qed.

(** ** The write path *)

Import Scenario.

(** The guard [!userId || !text]: a request with a falsy field, be it
    missing, [null], [0], [false] or the empty string, is answered with
    status 400 before any call is made. *)
Lemma post_tweet_falsy_field (env : Env) (w : World) (body : TweetRequest) :
  truthy (req_userId body) = false \/ truthy (req_text body) = false ->
  post_tweet body env w = (Ok (Json400 "userId and text are required"), w).
Proof.
  intros H. unfold post_tweet, try_catch.
  assert (Hg : negb (truthy (req_userId body)) || negb (truthy (req_text body))
               = true).
  { destruct H as [-> | ->]; simpl; [reflexivity | apply orb_true_r]. }
  now rewrite Hg.
Qed.

(** C8. A write request whose [userId] or [text] field is missing is
    answered with status 400 and leaves the world as it was: no row is
    inserted, no follower count is read, no message is queued and no call
    is made at all. *)
Theorem post_tweet_missing_field (env : Env) (w : World) (body : TweetRequest) :
  req_userId body = JUndefined \/ req_text body = JUndefined ->
  post_tweet body env w = (Ok (Json400 "userId and text are required"), w).
Proof.
  intros H. apply post_tweet_falsy_field.
  destruct H as [-> | ->]; [left | right]; reflexivity.
Qed.

Lemma post_tweet_missing_field_witness :
  post_tweet (mkTweetRequest JUndefined (JStr "hello")) calm w0
  = (Ok (Json400 "userId and text are required"), w0).
Proof. apply post_tweet_missing_field. left. reflexivity. Defined.

Lemma existsb_eqb_In (u : Z) (l : list Z) : In u l -> existsb (Z.eqb u) l = true.
Proof.
  intros H. apply existsb_exists. exists u. split; [assumption | apply Z.eqb_refl].
Qed.

(** Unfolding of the monad and of the calls, one layer at a time. *)
Ltac io_step :=
  cbv beta iota zeta delta
    [try_catch io_bind io_ret throw io
     db_insert_tweet db_count_followers db_list_followers db_select_user
     db_select_tweets_by_ids db_select_celebrity_tweets
     lRange lPush lTrim connectRabbitMQ sendToQueue
     log_event set_db set_redis set_queue set_channel negb orb andb];
  cbn [db redis queue channel calls log users follows tweets next_id fst snd].


Lemma no_fault_calm from n : no_fault calm from n.
Proof. intros i _. reflexivity. Qed.


(** Case analysis on everything a handler branches on. *)
Ltac io_cases :=
  repeat (io_step;
          match goal with
          | |- context [match ?c with _ => _ end] =>
              lazymatch c with
              | context [match _ with _ => _ end] => fail
              | _ => destruct c eqn:?
              end
          end);
  io_step.

(** C7. In every execution of the write path, whatever fails, a message
    is sent to the queue only after the insert of its tweet succeeded:
    among the calls of the request, the call that publishes a message
    comes after the call that inserted the tweet with the id of the
    message, and that tweet is in the store. *)
Theorem post_tweet_write_then_publish
    (env : Env) (w : World) (body : TweetRequest) :
  exists evs,
    log (snd (post_tweet body env w)) = log w ++ evs
    /\ forall (i : nat) (j : Job),
         evs !! i = Some (SendToQueue j) ->
         exists (i' : nat) (t : Tweet),
           (i' < i)%nat
           /\ evs !! i' = Some (InsertTweet t)
           /\ id t = tweetId j
           /\ In t (tweets (db (snd (post_tweet body env w)))).
Proof.
  unfold post_tweet. io_cases.
  all: cbn [snd log db tweets].
  all: eexists; split;
    [ rewrite <- ?app_assoc; try reflexivity; symmetry; apply app_nil_r | ].
  all: intros [|[|[|[|[|i]]]]] j Hi; try discriminate Hi.
  all: injection Hi as <-; exists 0%nat; eexists; cbn;
    (split; [lia | split; [reflexivity | split; [reflexivity |]]]).
  all: apply in_or_app; right; now left.
Qed.

(** ** The read path: errors *)

Lemma select_user_absent (d : Db) (u : Z) :
  ~ In u (users d) -> select_user d u = [].
Proof.
  unfold select_user. intros H.
  induction (users d) as [|x l IH]; [reflexivity |].
  simpl. destruct (Z.eqb_spec x u) as [-> | Hne].
  - exfalso. apply H. now left.
  - apply IH. intros Hin. apply H. now right.
Qed.

Lemma select_user_present (d : Db) (u : Z) :
  In u (users d) -> (length (select_user d u) =? 0)%nat = false.
Proof.
  unfold select_user. intros H.
  induction (users d) as [|x l IH]; [destruct H |].
  simpl. destruct (Z.eqb_spec x u) as [-> | Hne]; [reflexivity |].
  apply IH. destruct H as [-> | H]; [congruence | assumption].
Qed.

Lemma pg_int4_in_nonempty (s : string) (u : Z) :
  pg_int4_in s = Some u -> String.eqb s "" = false.
Proof. destruct s; [discriminate | reflexivity]. Qed.

(** C6, as the code has it. A timeline request for a consumer id that is
    a number of the type [INTEGER] and is not in [users] is answered with
    status 404 and no page. The only call made is the lookup of the
    user: the cache is not read and the celebrity query is not run. The
    lookup itself does not fail. *)
Theorem get_timeline_unknown_user
    (env : Env) (w : World) (userId : string) (u : Z) :
  pg_int4_in userId = Some u ->
  int4_range u ->
  ~ In u (users (db w)) ->
  fault env (calls w) = false ->
  get_timeline userId env w
  = (Ok (Json404 "User not found"), log_event (SelectUser u) w).
Proof.
  intros Hp _ Hu Hf. unfold get_timeline.
  rewrite (pg_int4_in_nonempty _ _ Hp). io_step.
  cbn [pg_param_int]. rewrite Hp, Hf. io_step.
  now rewrite (select_user_absent _ _ Hu).
Qed.

Lemma get_timeline_unknown_user_witness :
  get_timeline "99" calm w0
  = (Ok (Json404 "User not found"), log_event (SelectUser 99) w0).
Proof.
  apply (get_timeline_unknown_user calm w0 "99" 99).
  - reflexivity.
  - unfold int4_range. lia.
  - simpl. intros H. repeat (destruct H as [H | H]; [discriminate H |]). exact H.
  - reflexivity.
Defined.

(** C6, as the specification has it, fails. No user of the store has the
    id [abc], no call is failed by the environment, and the request is
    not answered with status 404: the store rejects the parameter of the
    lookup, which is not a number, and the handler reports an internal
    error. *)
Lemma get_timeline_unknown_user_not_404 :
  (forall u, In u (users (db w0)) -> js_toString u <> "abc")
  /\ calm_env calm
  /\ get_timeline "abc" calm w0
     = (Ok (Json500 "Internal server error"), log_event (Failed StoreError) w0).
Proof.
  split; [| split].
  - intros u H. simpl in H.
    repeat (destruct H as [<- | H]; [vm_compute; discriminate |]). destruct H.
  - intros n. reflexivity.
  - reflexivity.
Qed.

(** Whatever fails, a request for such a consumer gets no page and
    reaches neither the cache nor the tweets. *)
Lemma get_timeline_unknown_user_no_page
    (env : Env) (w : World) (userId : string) (u : Z) :
  pg_int4_in userId = Some u ->
  int4_range u ->
  ~ In u (users (db w)) ->
  exists r w',
    get_timeline userId env w = (Ok r, w')
    /\ (r = Json404 "User not found" \/ r = Json500 "Internal server error")
    /\ db w' = db w /\ redis w' = redis w
    /\ (log w' = log w ++ [Failed StoreError]
        \/ log w' = log w ++ [SelectUser u]).
Proof.
  intros Hp _ Hu. unfold get_timeline.
  rewrite (pg_int4_in_nonempty _ _ Hp). io_step.
  cbn [pg_param_int]. rewrite Hp.
  destruct (fault env (calls w)); io_step.
  { eexists _, _. split; [reflexivity |]. cbn. auto 6. }
  rewrite (select_user_absent _ _ Hu). cbn [length Nat.eqb].
  io_step. eexists _, _. split; [reflexivity |]. cbn. auto 6.
Qed.

(** C5, as the code has it. When the read of the cache fails, the
    timeline request of an existing user is answered with status 500 and
    no page: the error is thrown again by [fetchTweetIdsFromRedis], the
    celebrity query is not run, and the handler reports an internal
    error. *)
Theorem get_timeline_cache_failure
    (env : Env) (w : World) (userId : string) (u : Z) :
  pg_int4_in userId = Some u ->
  In u (users (db w)) ->
  fault env (calls w) = false ->
  fault env (S (calls w)) = true ->
  get_timeline userId env w
  = (Ok (Json500 "Internal server error"),
     log_event (Failed CacheError) (log_event (SelectUser u) w)).
Proof.
  intros Hp Hu Hf0 Hf1. unfold get_timeline, fetchTweetIdsFromRedis.
  rewrite (pg_int4_in_nonempty _ _ Hp). io_step.
  cbn [pg_param_int]. rewrite Hp, Hf0. io_step.
  rewrite (select_user_present _ _ Hu). io_step.
  now rewrite Hf1.
Qed.

Lemma get_timeline_cache_failure_witness :
  get_timeline "2" cache_down w0
  = (Ok (Json500 "Internal server error"),
     log_event (Failed CacheError) (log_event (SelectUser 2) w0)).
Proof.
  apply (get_timeline_cache_failure cache_down w0 "2" 2).
  - reflexivity.
  - simpl. tauto.
  - reflexivity.
  - reflexivity.
Defined.

(** C5, as the specification has it, fails: user 2 exists and follows a
    celebrity, the read of the cache fails, and the request does not
    return a page. *)
Lemma get_timeline_cache_failure_no_page :
  fault cache_down (S (calls w0)) = true
  /\ log (snd (get_timeline "2" cache_down w0))
     = [SelectUser 2; Failed CacheError]
  /\ ~ exists userId timeline stats,
         fst (get_timeline "2" cache_down w0)
         = Ok (TimelineJson userId timeline stats).
Proof.
  split; [reflexivity |]. split; [reflexivity |].
  intros (userId & timeline & stats & H). vm_compute in H. discriminate H.
Qed.

(** ** The merge *)

Lemma In_take {A} (x : A) (n : nat) (l : list A) : In x (take n l) -> In x l.
Proof.
  revert n. induction l as [|y r IH]; intros [|n]; simpl; try tauto.
  intros [-> | H]; [now left | right; eauto].
Qed.

Lemma NoDup_take {A} (n : nat) (l : list A) :
  List.NoDup l -> List.NoDup (take n l).
Proof.
  revert n. induction l as [|y r IH]; intros [|n] H; simpl; try constructor.
  - inversion_clear H as [|? ? Hy Hr]. intros Hin. apply Hy.
    now apply In_take in Hin.
  - inversion_clear H. now apply IH.
Qed.

Section Sorting.
Context {A : Type} (cmp : A -> A -> Z).

Lemma sort_insert_Permutation (x : A) (l : list A) :
  Permutation (sort_insert cmp x l) (x :: l).
Proof.
  induction l as [|y r IH]; simpl; [reflexivity |].
  destruct (0 <? cmp x y); [| reflexivity].
  rewrite IH. apply perm_swap.
Qed.

Lemma js_sort_Permutation (l : list A) : Permutation (js_sort cmp l) l.
Proof.
  induction l as [|x r IH]; simpl; [reflexivity |].
  rewrite sort_insert_Permutation. now constructor.
Qed.

Lemma js_sort_length (l : list A) : length (js_sort cmp l) = length l.
Proof. apply Permutation_length, js_sort_Permutation. Qed.

Lemma js_sort_In (x : A) (l : list A) : In x (js_sort cmp l) <-> In x l.
Proof.
  split; apply Permutation_in; [| symmetry]; apply js_sort_Permutation.
Qed.
End Sorting.

Lemma sort_insert_newest_first (x : Tweet) (l : list Tweet) :
  newest_first l -> newest_first (sort_insert by_timestamp_desc x l).
Proof.
  unfold newest_first.
  induction l as [|y r IH]; intros Hs; simpl.
  - repeat constructor.
  - apply StronglySorted_inv in Hs as [Hr Hy].
    unfold by_timestamp_desc at 1.
    destruct (Z.ltb_spec 0 (timestamp y - timestamp x)) as [Hlt | Hge].
    + constructor; [now apply IH |].
      rewrite List.Forall_forall. intros z Hz.
      apply (Permutation_in _ (sort_insert_Permutation _ x r)) in Hz.
      destruct Hz as [<- | Hz]; [lia |].
      rewrite List.Forall_forall in Hy. now apply Hy.
    + constructor; [now constructor |].
      constructor; [lia |].
      rewrite List.Forall_forall in Hy |- *. intros z Hz.
      specialize (Hy z Hz). lia.
Qed.

Lemma js_sort_newest_first (l : list Tweet) :
  newest_first (js_sort by_timestamp_desc l).
Proof.
  induction l as [|x r IH]; simpl.
  - constructor.
  - now apply sort_insert_newest_first.
Qed.

Lemma newest_first_take (n : nat) (l : list Tweet) :
  newest_first l -> newest_first (take n l).
Proof.
  unfold newest_first. revert n.
  induction l as [|x r IH]; intros [|n] Hs; simpl; try constructor.
  - apply IH. now apply StronglySorted_inv in Hs.
  - apply StronglySorted_inv in Hs as [_ Hx].
    rewrite List.Forall_forall in Hx |- *. intros z Hz.
    apply Hx. now apply In_take in Hz.
Qed.

Lemma find_app_first {A} (p : A -> bool) (l1 l2 : list A) :
  List.find p (l1 ++ l2)
  = match List.find p l1 with
    | Some x => Some x
    | None => List.find p l2
    end.
Proof.
  induction l1 as [|x r IH]; simpl; [reflexivity |].
  now destruct (p x).
Qed.

Section JsMap.
Context {V : Type}.
Implicit Types (m : list (Z * V)) (k : Z) (v : V).

Lemma map_set_keys k v m :
  List.map fst (map_set k v m)
  = if existsb (Z.eqb k) (List.map fst m) then List.map fst m
    else List.map fst m ++ [k].
Proof.
  induction m as [|[k' v'] r IH]; simpl; [reflexivity |].
  destruct (Z.eqb_spec k k') as [-> | Hne]; simpl; [reflexivity |].
  rewrite IH. now destruct (existsb _ _).
Qed.

Lemma existsb_eqb_false k (l : list Z) :
  existsb (Z.eqb k) l = false -> ~ In k l.
Proof.
  intros H Hin. apply existsb_eqb_In in Hin. congruence.
Qed.

Lemma map_set_NoDup k v m :
  List.NoDup (List.map fst m) -> List.NoDup (List.map fst (map_set k v m)).
Proof.
  intros H. rewrite map_set_keys.
  destruct (existsb _ _) eqn:E; [assumption |].
  apply existsb_eqb_false in E.
  apply (Permutation_NoDup (l := k :: List.map fst m)).
  - apply Permutation_cons_append.
  - now constructor.
Qed.

Lemma map_get_set k' k v m :
  map_get k' (map_set k v m) = if k =? k' then Some v else map_get k' m.
Proof.
  unfold map_get.
  induction m as [|[k1 v1] r IH]; simpl.
  - now destruct (k =? k').
  - destruct (Z.eqb_spec k k1) as [-> | Hne]; simpl.
    + now destruct (k1 =? k').
    + destruct (Z.eqb_spec k1 k') as [-> | Hne'].
      * destruct (Z.eqb_spec k k'); [congruence | reflexivity].
      * exact IH.
Qed.

Lemma map_get_app k m1 m2 :
  map_get k (m1 ++ m2)
  = match map_get k m1 with
    | Some v => Some v
    | None => map_get k m2
    end.
Proof.
  unfold map_get. rewrite find_app_first.
  now destruct (List.find _ m1).
Qed.

Lemma map_get_In k v m :
  List.NoDup (List.map fst m) -> In (k, v) m -> map_get k m = Some v.
Proof.
  unfold map_get.
  induction m as [|[k1 v1] r IH]; simpl; [tauto |].
  intros Hnd [Heq | Hin].
  - injection Heq as -> ->. now rewrite Z.eqb_refl.
  - inversion_clear Hnd as [|? ? Hk Hr].
    destruct (Z.eqb_spec k1 k) as [-> | Hne].
    + exfalso. apply Hk. now apply (in_map fst) in Hin.
    + now apply IH.
Qed.

Lemma new_Map_from_NoDup (entries : list (Z * V)) m :
  List.NoDup (List.map fst m) ->
  List.NoDup
    (List.map fst
       (fold_left (fun m kv => map_set (fst kv) (snd kv) m) entries m)).
Proof.
  revert m. induction entries as [|[k v] es IH]; intros m H; simpl.
  - assumption.
  - apply IH. now apply map_set_NoDup.
Qed.

Lemma new_Map_NoDup (entries : list (Z * V)) :
  List.NoDup (List.map fst (new_Map entries)).
Proof. apply new_Map_from_NoDup. constructor. Qed.

(** Under a key, a [Map] built from entries holds the value of the last
    entry with that key. *)
Lemma new_Map_from_get k (entries : list (Z * V)) m :
  map_get k (fold_left (fun m kv => map_set (fst kv) (snd kv) m) entries m)
  = match map_get k (rev entries) with
    | Some v => Some v
    | None => map_get k m
    end.
Proof.
  revert m. induction entries as [|[k1 v1] es IH]; intros m; simpl.
  - reflexivity.
  - rewrite IH, map_get_app.
    destruct (map_get k (rev es)) as [v|]; [reflexivity |].
    rewrite map_get_set. unfold map_get. simpl.
    now destruct (k1 =? k).
Qed.

Lemma new_Map_get k (entries : list (Z * V)) :
  map_get k (new_Map entries) = map_get k (rev entries).
Proof.
  unfold new_Map. rewrite new_Map_from_get.
  now destruct (map_get k (rev entries)).
Qed.
End JsMap.

Section JsMapEntries.
Context {V : Type}.

Lemma map_set_In (k k' : Z) (v v' : V) (m : list (Z * V)) :
  In (k', v') (map_set k v m) -> (k', v') = (k, v) \/ In (k', v') m.
Proof.
  induction m as [|[k1 v1] r IH]; simpl.
  - intros [H | []]. now left.
  - destruct (k =? k1); simpl.
    + intros [H | H]; [now left | right; now right].
    + intros [H | H]; [right; now left |].
      destruct (IH H); [now left | right; now right].
Qed.

Lemma new_Map_from_In (entries : list (Z * V)) (m : list (Z * V)) kv :
  In kv (fold_left (fun m kv => map_set (fst kv) (snd kv) m) entries m) ->
  In kv entries \/ In kv m.
Proof.
  revert m. induction entries as [|[k v] es IH]; intros m; simpl.
  - now right.
  - intros H. apply IH in H as [H | H]; [left; now right |].
    destruct kv as [k' v']. apply map_set_In in H as [H | H].
    + left. left. now symmetry.
    + now right.
Qed.

Lemma new_Map_In (entries : list (Z * V)) kv :
  In kv (new_Map entries) -> In kv entries.
Proof.
  intros H. apply new_Map_from_In in H as [H | []]. exact H.
Qed.
End JsMapEntries.

Lemma uniqueTweets_entries (allTweets : list Tweet) (kv : Z * Tweet) :
  In kv (new_Map (List.map entry allTweets)) ->
  fst kv = id (snd kv) /\ In (snd kv) allTweets.
Proof.
  intros H. apply new_Map_In in H. apply in_map_iff in H as (t & <- & Ht).
  now split.
Qed.

Lemma uniqueTweets_ids (allTweets : list Tweet) :
  List.map id (uniqueTweets allTweets)
  = List.map fst (new_Map (List.map entry allTweets)).
Proof.
  unfold uniqueTweets, map_values. rewrite List.map_map.
  apply map_ext_in. intros kv H.
  apply uniqueTweets_entries in H as [H _]. now symmetry.
Qed.

Lemma uniqueTweets_NoDup (allTweets : list Tweet) :
  List.NoDup (List.map id (uniqueTweets allTweets)).
Proof. rewrite uniqueTweets_ids. apply new_Map_NoDup. Qed.

Lemma uniqueTweets_In (allTweets : list Tweet) (t : Tweet) :
  In t (uniqueTweets allTweets) -> In t allTweets.
Proof.
  unfold uniqueTweets, map_values.
  intros H. apply in_map_iff in H as (kv & <- & H).
  now apply uniqueTweets_entries in H.
Qed.

Lemma map_get_entries (i : Z) (l : list Tweet) :
  map_get i (List.map entry l) = List.find (fun t => id t =? i) l.
Proof.
  unfold map_get. induction l as [|t r IH]; simpl; [reflexivity |].
  destruct (id t =? i); [reflexivity | exact IH].
Qed.

(** Deduplication keeps, for each id, the last tweet with that id. *)
Lemma uniqueTweets_last (allTweets : list Tweet) (t : Tweet) :
  In t (uniqueTweets allTweets) -> last_with_id (id t) allTweets = Some t.
Proof.
  unfold uniqueTweets, map_values.
  intros H. apply in_map_iff in H as ([k t'] & Ht & H). simpl in Ht. subst t'.
  pose proof (uniqueTweets_entries _ _ H) as [Hk _]. simpl in Hk. subst k.
  apply map_get_In in H; [| apply new_Map_NoDup].
  rewrite new_Map_get, <- map_rev, map_get_entries in H. exact H.
Qed.

Lemma merge_timeline_In (cachedTweets celebrityTweets : list Tweet) (t : Tweet) :
  In t (merge_timeline cachedTweets celebrityTweets) ->
  In t (uniqueTweets (cachedTweets ++ celebrityTweets)).
Proof.
  unfold merge_timeline. intros H. apply In_take in H.
  now apply js_sort_In in H.
Qed.

Lemma merge_timeline_NoDup (cachedTweets celebrityTweets : list Tweet) :
  List.NoDup (List.map id (merge_timeline cachedTweets celebrityTweets)).
Proof.
  unfold merge_timeline. rewrite <- firstn_map. apply NoDup_take.
  apply (Permutation_NoDup
           (l := List.map id (uniqueTweets (cachedTweets ++ celebrityTweets)))).
  - apply Permutation_map. symmetry. apply js_sort_Permutation.
  - apply uniqueTweets_NoDup.
Qed.

Lemma merge_timeline_newest_first (cachedTweets celebrityTweets : list Tweet) :
  newest_first (merge_timeline cachedTweets celebrityTweets).
Proof. apply newest_first_take, js_sort_newest_first. Qed.

Lemma merge_timeline_length (cachedTweets celebrityTweets : list Tweet) :
  (length (merge_timeline cachedTweets celebrityTweets) <= 20)%nat.
Proof. unfold merge_timeline. rewrite length_take. lia. Qed.

(** C2. Whatever the cache and the celebrity query return, the page of
    the timeline has no two tweets with the same id, is ordered by
    timestamp from the newest to the oldest, and has at most twenty
    tweets. *)
Theorem merge_timeline_correct (cachedTweets celebrityTweets : list Tweet) :
  let timeline := merge_timeline cachedTweets celebrityTweets in
  List.NoDup (List.map id timeline)
  /\ newest_first timeline
  /\ (length timeline <= 20)%nat.
Proof.
  split; [apply merge_timeline_NoDup |].
  split; [apply merge_timeline_newest_first | apply merge_timeline_length].
Qed.

(** Every page that the handler returns is a merge of two lists. *)
Lemma get_timeline_page (env : Env) (w w' : World) (userId userId' : string)
    (timeline : list Tweet) (stats : Stats) :
  get_timeline userId env w = (Ok (TimelineJson userId' timeline stats), w') ->
  exists cachedTweets celebrityTweets,
    timeline = merge_timeline cachedTweets celebrityTweets.
Proof.
  unfold get_timeline, fetchTweetIdsFromRedis, fetchCelebrityTweetsFromDB.
  io_cases; intros [= <- <- <-]; eauto.
Qed.

(** C10. When an id occurs both among the tweets resolved from the cache
    and among the tweets of the celebrity query, the tweet returned for
    that id is the one of the celebrity query, the last of them with that
    id: the later entry replaces the earlier one in the map. *)
Theorem merge_timeline_keeps_celebrity_record
    (cachedTweets celebrityTweets : list Tweet) (t c : Tweet) :
  In t (merge_timeline cachedTweets celebrityTweets) ->
  In c celebrityTweets ->
  id c = id t ->
  last_with_id (id t) celebrityTweets = Some t /\ In t celebrityTweets.
Proof.
  intros Ht Hc Hid. apply merge_timeline_In, uniqueTweets_last in Ht.
  unfold last_with_id in *. rewrite rev_app_distr, find_app_first in Ht.
  destruct (List.find _ (rev celebrityTweets)) as [t'|] eqn:E.
  - injection Ht as ->. split; [reflexivity |].
    apply find_some in E as [E _]. now apply in_rev in E.
  - exfalso. apply in_rev in Hc.
    pose proof (find_none _ _ E c Hc) as Hf. simpl in Hf.
    apply Z.eqb_neq in Hf. contradiction.
Qed.

Lemma merge_timeline_keeps_celebrity_record_witness :
  last_with_id (id celebrity_copy) [celebrity_copy] = Some celebrity_copy
  /\ In celebrity_copy [celebrity_copy].
Proof.
  apply (merge_timeline_keeps_celebrity_record
           [cache_copy] [celebrity_copy] celebrity_copy celebrity_copy).
  - simpl. left. reflexivity.
  - simpl. left. reflexivity.
  - reflexivity.
Defined.

Example merge_timeline_drops_cache_copy :
  merge_timeline [cache_copy] [celebrity_copy] = [celebrity_copy].
Proof. reflexivity. Qed.

(** ** The cache *)

Lemma redis_slice_0_19 {A} (l : list A) : redis_slice l 0 19 = take 20 l.
Proof.
  unfold redis_slice. cbn [Z.ltb Z.compare].
  change (19 <? 0) with false. cbn [orb].
  destruct (Z.leb_spec (Z.of_nat (length l)) 0) as [H0 | H0].
  - destruct l; [reflexivity | simpl in H0; lia].
  - destruct (Z.leb_spec (Z.of_nat (length l)) 19) as [H1 | H1].
    + rewrite Z.sub_0_r, Z.sub_add, Nat2Z.id.
      change (drop (Z.to_nat 0) l) with l.
      rewrite firstn_all. symmetry. apply firstn_all2. lia.
    + reflexivity.
Qed.

Lemma redis_get_set_eq (r : Redis) (key : string) (l : list string) :
  redis_get (redis_set r key l) key = l.
Proof.
  unfold redis_get, redis_set. destruct l.
  - now rewrite lookup_delete_eq.
  - now rewrite lookup_insert_eq.
Qed.

Lemma redis_get_set_ne (r : Redis) (key key' : string) (l : list string) :
  key <> key' -> redis_get (redis_set r key l) key' = redis_get r key'.
Proof.
  intros Hne. unfold redis_get, redis_set. destruct l.
  - now rewrite lookup_delete_ne.
  - now rewrite lookup_insert_ne.
Qed.

(** What one operation of the worker does to the lists of the cache. *)
Lemma push_trim_same (r : Redis) (followerId tweetId : Z) :
  redis_get (run_cmds (push_trim_cmds followerId tweetId) r)
    (timelineKey (js_toString followerId))
  = take 20 (js_toString tweetId
             :: redis_get r (timelineKey (js_toString followerId))).
Proof.
  unfold run_cmds, push_trim_cmds. cbn [fold_left run_cmd].
  unfold redis_lTrim, redis_lPush.
  now rewrite !redis_get_set_eq, redis_slice_0_19.
Qed.

Lemma push_trim_other (r : Redis) (followerId tweetId : Z) (key : string) :
  timelineKey (js_toString followerId) <> key ->
  redis_get (run_cmds (push_trim_cmds followerId tweetId) r) key
  = redis_get r key.
Proof.
  intros Hne. unfold run_cmds, push_trim_cmds. cbn [fold_left run_cmd].
  unfold redis_lTrim, redis_lPush.
  now rewrite !redis_get_set_ne.
Qed.

Lemma run_cmds_app (c1 c2 : list RedisCmd) (r : Redis) :
  run_cmds (c1 ++ c2) r = run_cmds c2 (run_cmds c1 r).
Proof. apply fold_left_app. Qed.

(** The bound on a list after a sequence of operations. *)
Lemma worker_ops_depth (r : Redis) (ops : list (Z * Z)) (key : string) :
  In key (List.map (fun op => timelineKey (js_toString (fst op))) ops)
  \/ (length (redis_get r key) <= 20)%nat ->
  (length (redis_get (run_cmds (worker_ops_cmds ops) r) key) <= 20)%nat.
Proof.
  revert r. induction ops as [|[f t] ops IH]; intros r H.
  - destruct H as [[] | H]. exact H.
  - unfold worker_ops_cmds. cbn [flat_map fst snd].
    rewrite run_cmds_app. apply IH.
    destruct (decide (timelineKey (js_toString f) = key)) as [<- | Hne].
    + right. rewrite push_trim_same, length_take. lia.
    + destruct H as [[H | H] | H].
      * contradiction.
      * now left.
      * right. now rewrite push_trim_other.
Qed.

(** ** The worker *)

Lemma calls_ok_all (env : Env) (from n : nat) :
  calls_ok env from n = n <-> no_fault env from n.
Proof.
  revert from. induction n as [|n IH]; intros from; simpl.
  - split; [intros _ i Hi; lia | reflexivity].
  - destruct (fault env from) eqn:Hf.
    + split; [discriminate |]. intros H. specialize (H from). rewrite Hf in H.
      discriminate H. lia.
    + split.
      * intros [= H]. apply IH in H. intros i Hi.
        destruct (decide (i = from)) as [-> | Hne]; [assumption |].
        apply H. lia.
      * intros H. f_equal. apply IH. intros i Hi. apply H. lia.
Qed.

(** The loop of the worker sends the commands of the message in order
    and stops at the first one that fails; what the commands before it
    did to the cache stays. *)
Lemma fan_out_run (tweetId : Z) (followers : list Z) (env : Env) (w : World) :
  let cmds := fan_out_cmds tweetId followers in
  let k := calls_ok env (calls w) (length cmds) in
  exists w',
    fan_out tweetId followers env w
    = (if (k =? length cmds)%nat then Ok tt else Throw CacheError, w')
    /\ db w' = db w /\ queue w' = queue w /\ channel w' = channel w
    /\ redis w' = run_cmds (take k cmds) (redis w)
    /\ log w'
       = log w ++ List.map cmd_event (take k cmds)
         ++ (if (k =? length cmds)%nat then [] else [Failed CacheError]).
Proof.
  revert w. induction followers as [|f rest IH]; intros w.
  - exists w. cbn. rewrite app_nil_r. auto 6.
  - cbn [fan_out fan_out_cmds flat_map push_trim_cmds app length calls_ok].
    io_step.
    destruct (fault env (calls w)) eqn:H0; io_step.
    { eexists. split; [reflexivity |]. cbn. auto 6. }
    destruct (fault env (S (calls w))) eqn:H1; io_step.
    { eexists. split; [reflexivity |]. cbn. rewrite <- app_assoc. auto 6. }
    match goal with
    | |- context [fan_out tweetId rest env ?w2] =>
        destruct (IH w2) as (w' & Hrun & Hdb & Hq & Hc & Hr & Hl)
    end.
    cbn [calls db redis queue channel log] in Hrun, Hdb, Hq, Hc, Hr, Hl.
    exists w'. rewrite Hrun.
    cbn [Nat.eqb take List.map fold_left run_cmds run_cmd cmd_event app].
    fold (fan_out_cmds tweetId rest).
    split; [reflexivity |].
    rewrite Hdb, Hq, Hc, Hr, Hl. rewrite <- !app_assoc. cbn [app].
    auto 6.
Qed.

(** A message whose commands all succeed has done the operations of its
    followers, one after the other. *)
Lemma fan_out_complete
    (tweetId : Z) (followers : list Z) (env : Env) (w w' : World) :
  fan_out tweetId followers env w = (Ok tt, w') ->
  redis w'
  = run_cmds (worker_ops_cmds (List.map (fun f => (f, tweetId)) followers))
      (redis w).
Proof.
  intros H.
  destruct (fan_out_run tweetId followers env w)
    as (w2 & Hrun & _ & _ & _ & Hr & _).
  rewrite H in Hrun.
  destruct (Nat.eqb_spec
              (calls_ok env (calls w) (length (fan_out_cmds tweetId followers)))
              (length (fan_out_cmds tweetId followers))) as [Hk | Hk];
    [| discriminate Hrun].
  injection Hrun as <-. rewrite Hr, Hk, firstn_all. f_equal.
  unfold worker_ops_cmds, fan_out_cmds. clear.
  induction followers as [|f fs IH]; simpl; [reflexivity |]. now rewrite IH.
Qed.

(** After a message whose commands all succeed, the list of each of its
    followers has at most twenty entries, and so has every list that had
    at most twenty before. *)
Lemma fan_out_cache_depth
    (tweetId : Z) (followers : list Z) (env : Env) (w w' : World)
    (key : string) :
  fan_out tweetId followers env w = (Ok tt, w') ->
  In key (List.map (fun f => timelineKey (js_toString f)) followers)
  \/ (length (redis_get (redis w) key) <= 20)%nat ->
  (length (redis_get (redis w') key) <= 20)%nat.
Proof.
  intros Hrun H. rewrite (fan_out_complete _ _ _ _ _ Hrun).
  apply worker_ops_depth. rewrite List.map_map. exact H.
Qed.

Lemma deliver_unfold (env : Env) (w : World) (message : Job) (rest : list Job) :
  queue w = message :: rest ->
  deliver env w
  = match fan_out (tweetId message) (followers message) env (set_queue rest w)
    with
    | (Ok _, w') => (Some Ack, w')
    | (Throw _, w') => (Some (Nack false true), set_queue (message :: queue w') w')
    end.
Proof.
  intros Hq. unfold deliver, on_message, try_catch, io_bind, io_ret. rewrite Hq.
  now destruct (fan_out _ _ env (set_queue rest w)) as [[[]|e] w'].
Qed.

(** What one delivery does, whichever call fails: the verdict, the
    queue and the cache after it. *)
Lemma deliver_run (env : Env) (w : World) (message : Job) (rest : list Job) :
  queue w = message :: rest ->
  let cmds := fan_out_cmds (tweetId message) (followers message) in
  let k := calls_ok env (calls w) (length cmds) in
  fst (deliver env w)
  = Some (if (k =? length cmds)%nat then Ack else Nack false true)
  /\ queue (snd (deliver env w))
     = (if (k =? length cmds)%nat then rest else message :: rest)
  /\ redis (snd (deliver env w)) = run_cmds (take k cmds) (redis w).
Proof.
  intros Hq cmds k. rewrite (deliver_unfold env w message rest Hq).
  destruct (fan_out_run (tweetId message) (followers message) env
              (set_queue rest w))
    as (w' & Hrun & _ & Hq' & _ & Hr & _).
  cbn [set_queue calls db redis queue channel log] in Hrun, Hq', Hr.
  fold cmds in Hrun, Hr. fold k in Hrun, Hr. rewrite Hrun.
  destruct (k =? length cmds)%nat; cbn [set_queue fst snd queue redis];
    rewrite ?Hq'; auto.
Qed.

(** The commands of the messages of a queue, one message after the
    other, are a sequence of operations. *)
Lemma fan_out_cmds_worker_ops (tweetId : Z) (followers : list Z) :
  fan_out_cmds tweetId followers
  = worker_ops_cmds (List.map (fun f => (f, tweetId)) followers).
Proof.
  unfold worker_ops_cmds, fan_out_cmds.
  induction followers as [|f fs IH]; simpl; [reflexivity |]. now rewrite IH.
Qed.

(** Deliveries that are all acknowledged have done the operations of
    their messages, in the order of the queue, and have taken the
    messages off the queue. *)
Lemma deliveries_acked
    (env : Env) (done : list Job) (tail : list Job) (w : World) (key : string) :
  queue w = done ++ tail ->
  fst (deliveries (length done) env w) = repeat (Some Ack) (length done) ->
  queue (snd (deliveries (length done) env w)) = tail
  /\ (In key (List.map (fun f => timelineKey (js_toString f))
                (flat_map followers done))
      \/ (length (redis_get (redis w) key) <= 20)%nat ->
      (length (redis_get (redis (snd (deliveries (length done) env w))) key)
       <= 20)%nat).
Proof.
  revert w. induction done as [|m done IH]; intros w Hq Hack.
  - split; [exact Hq |]. intros [[] | H]. exact H.
  - cbn [length deliveries repeat] in Hack |- *.
    destruct (deliver_run env w m (done ++ tail) Hq) as (Hv & Hq1 & Hr1).
    destruct (deliver env w) as [v w1]. cbn [fst snd] in Hv, Hq1, Hr1.
    specialize (IH w1).
    destruct (deliveries (length done) env w1) as [vs w'].
    cbn [fst snd] in IH, Hack |- *.
    injection Hack as Hv' Hvs. rewrite Hv in Hv'.
    destruct (Nat.eqb_spec
                (calls_ok env (calls w) (length (fan_out_cmds (tweetId m) (followers m))))
                (length (fan_out_cmds (tweetId m) (followers m)))) as [Hk | Hk];
      [| discriminate Hv'].
    destruct (IH Hq1 Hvs) as [IHq IHd]. split; [exact IHq |].
    intros H. apply IHd.
    rewrite Hr1, Hk, firstn_all, fan_out_cmds_worker_ops.
    cbn [flat_map] in H. rewrite List.map_app, in_app_iff in H.
    destruct H as [[H | H] | H].
    + right. apply worker_ops_depth. left. now rewrite List.map_map.
    + now left.
    + destruct (in_dec string_dec key
                  (List.map (fun f => timelineKey (js_toString f)) (followers m)))
        as [Hin | Hout].
      * right. apply worker_ops_depth. left. now rewrite List.map_map.
      * right. apply worker_ops_depth. now right.
Qed.

(** The loop stopped after [k] commands: the lists of the operations that
    it completed are within the bound, and so is every list that was
    within it, but for the list that a push without its trim left
    longer. *)
Lemma fan_out_cmds_take_depth
    (tweetId : Z) (followers : list Z) (k : nat) (r : Redis) (key : string) :
  (Nat.odd k = true ->
   key <> timelineKey (js_toString (nth (Nat.div2 k) followers 0))) ->
  In key (List.map (fun f => timelineKey (js_toString f))
            (take (Nat.div2 k) followers))
  \/ (length (redis_get r key) <= 20)%nat ->
  (length (redis_get (run_cmds (take k (fan_out_cmds tweetId followers)) r) key)
   <= 20)%nat.
Proof.
  revert k r. induction followers as [|f fs IH]; intros k r Hodd H.
  - cbn [fan_out_cmds flat_map]. rewrite take_nil. rewrite take_nil in H.
    destruct H as [[] | H]. exact H.
  - destruct k as [|[|k]].
    + destruct H as [[] | H]. exact H.
    + destruct H as [[] | H].
      cbn [fan_out_cmds flat_map push_trim_cmds app take run_cmds fold_left run_cmd].
      unfold redis_lPush. rewrite redis_get_set_ne; [exact H |].
      intros Heq. now apply (Hodd eq_refl).
    + change (take (S (S k)) (fan_out_cmds tweetId (f :: fs)))
        with (push_trim_cmds f tweetId ++ take k (fan_out_cmds tweetId fs)).
      rewrite run_cmds_app. apply IH.
      * exact Hodd.
      * cbn [Nat.div2 take List.map In] in H.
        destruct (decide (timelineKey (js_toString f) = key)) as [<- | Hne].
        { right. rewrite push_trim_same, length_take. lia. }
        destruct H as [[H | H] | H].
        { contradiction. }
        { now left. }
        { right. now rewrite push_trim_other. }
Qed.

(** C3. Take any list of the cache and any sequence of operations of the
    worker, each one a push to the front of a list followed by the trim
    to its first twenty entries: the messages [done], which the worker
    acknowledged, and the operations of the next message that were
    completed when a command failed, if one did. [k] is the number of
    commands of that delivery made before the failure, two for each
    completed operation. After them the list has at most twenty entries
    as soon as one of the completed operations was on it, whatever its
    length before, and a list that had at most twenty entries keeps at
    most twenty. When [k] is odd the loop stopped between a push and its
    trim: that operation is not completed, and its list is left out. *)
Theorem cache_depth_invariant
    (env : Env) (w : World) (done : list Job) (message : Job) (rest : list Job)
    (key : string) :
  queue w = done ++ message :: rest ->
  let n := length done in
  fst (deliveries n env w) = repeat (Some Ack) n ->
  let wn := snd (deliveries n env w) in
  let cmds := fan_out_cmds (tweetId message) (followers message) in
  let k := calls_ok env (calls wn) (length cmds) in
  let w' := snd (deliver env wn) in
  (Nat.odd k = true ->
   key <> timelineKey (js_toString (nth (Nat.div2 k) (followers message) 0))) ->
  In key (List.map (fun f => timelineKey (js_toString f))
            (flat_map followers done ++ take (Nat.div2 k) (followers message)))
  \/ (length (redis_get (redis w) key) <= 20)%nat ->
  (length (redis_get (redis w') key) <= 20)%nat.
Proof.
  intros Hq n Hack wn cmds k w' Hodd H.
  destruct (deliveries_acked env done (message :: rest) w key Hq Hack)
    as [Hqn Hdone].
  fold n in Hqn, Hdone. fold wn in Hqn, Hdone.
  destruct (deliver_run env wn message rest Hqn) as (_ & _ & Hr).
  fold cmds in Hr. fold k in Hr. fold w' in Hr. rewrite Hr.
  apply fan_out_cmds_take_depth; [exact Hodd |].
  rewrite List.map_app, in_app_iff in H.
  destruct H as [[H | H] | H].
  - right. apply Hdone. now left.
  - now left.
  - right. apply Hdone. now right.
Qed.

Lemma cache_depth_invariant_witness :
  length (redis_get (redis w_busy) "timeline:2") = 20%nat
  /\ (length
        (redis_get
           (redis (snd (deliver seventh_fails
                          (snd (deliveries 1 seventh_fails w_busy)))))
           "timeline:2")
      <= 20)%nat.
Proof.
  split; [reflexivity |].
  apply (cache_depth_invariant seventh_fails w_busy
           [mkJob 222 [2; 3]] (mkJob 223 [3; 2]) [] "timeline:2").
  - reflexivity.
  - reflexivity.
  - vm_compute. discriminate.
  - left. simpl. left. reflexivity.
Defined.

(** In that run the list of follower 2, full before, has taken tweet 222
    and lost its oldest entry; the push of tweet 223 failed. When it is
    the trim after that push that fails, the list is left with
    twenty-one entries until the message is delivered again. *)
Example cache_depth_after_failure :
  redis_get
    (redis (snd (deliver seventh_fails
                   (snd (deliveries 1 seventh_fails w_busy)))))
    "timeline:2"
  = "222" :: List.map (fun n => js_toString (Z.of_nat n)) (rev (seq 202 19))
  /\ length
       (redis_get
          (redis (snd (deliver eighth_fails
                         (snd (deliveries 1 eighth_fails w_busy)))))
          "timeline:2")
     = 21%nat.
Proof. split; vm_compute; reflexivity. Qed.

(** C9. A message is acknowledged exactly when every update of the cache
    that it asks for succeeds. When one fails, the message is rejected
    with [requeue] and is in the queue again, at its place; the updates
    made before the failure stay in the cache. [k] is the number of
    commands made before the first failure. *)
Theorem deliver_ack_policy
    (env : Env) (w : World) (message : Job) (rest : list Job) :
  queue w = message :: rest ->
  let cmds := fan_out_cmds (tweetId message) (followers message) in
  let k := calls_ok env (calls w) (length cmds) in
  exists v w',
    deliver env w = (Some v, w')
    /\ (v = Ack <-> no_fault env (calls w) (length cmds))
    /\ (v <> Ack -> v = Nack false true)
    /\ queue w' = (if decide (v = Ack) then rest else message :: rest)
    /\ redis w' = run_cmds (take k cmds) (redis w)
    /\ log w'
       = log w ++ List.map cmd_event (take k cmds)
         ++ (if decide (v = Ack) then [] else [Failed CacheError]).
Proof.
  intros Hq cmds k. unfold deliver, on_message. rewrite Hq.
  unfold try_catch at 1. unfold io_bind at 1.
  destruct (fan_out_run (tweetId message) (followers message) env
              (set_queue rest w))
    as (w' & Hrun & Hdb & Hq' & Hc & Hr & Hl).
  cbn [set_queue calls db redis queue channel log] in Hrun, Hdb, Hq', Hc, Hr, Hl.
  fold cmds in Hrun, Hr, Hl. fold k in Hrun, Hr, Hl.
  rewrite Hrun.
  destruct (Nat.eqb_spec k (length cmds)) as [Hk | Hk].
  - exists Ack, w'. io_step. cbn [settle].
    split; [reflexivity |]. split.
    { split; [intros _; now apply calls_ok_all | reflexivity]. }
    split; [congruence |].
    destruct (decide (Ack = Ack)); [| congruence]. auto.
  - exists (Nack false true). eexists. io_step. cbn [settle set_queue].
    split; [reflexivity |]. split.
    { split; [discriminate |]. intros H. apply calls_ok_all in H. contradiction. }
    split; [reflexivity |].
    cbn [queue redis log].
    destruct (decide (Nack false true = Ack)); [discriminate |].
    rewrite Hq'. auto.
Qed.

Lemma deliver_ack_policy_witness :
  exists v w',
    deliver cache_flaky w1 = (Some v, w')
    /\ (v = Ack <-> no_fault cache_flaky 0 6)
    /\ (v <> Ack -> v = Nack false true)
    /\ queue w' = (if decide (v = Ack) then [] else [mkJob 101 [2; 3; 4]])
    /\ redis w' = run_cmds (take 2 (fan_out_cmds 101 [2; 3; 4])) ∅
    /\ log w'
       = [] ++ List.map cmd_event (take 2 (fan_out_cmds 101 [2; 3; 4]))
         ++ (if decide (v = Ack) then [] else [Failed CacheError]).
Proof.
  exact (deliver_ack_policy cache_flaky w1 (mkJob 101 [2; 3; 4]) [] eq_refl).
Defined.

(** The same delivery, computed: the message is rejected and queued
    again, and the list of follower 2 keeps the tweet. *)
Example deliver_partial_failure :
  let (v, w') := deliver cache_flaky w1 in
  v = Some (Nack false true)
  /\ queue w' = [mkJob 101 [2; 3; 4]]
  /\ map_to_list (redis w') = [("timeline:2", ["101"])]
  /\ log w' = [LPush "timeline:2" "101"; LTrim "timeline:2"; Failed CacheError].
Proof. vm_compute. auto. Qed.

(** ** A run of the three parts *)

(** Producer 1, with three followers, posts tweet 101: a message is
    queued and the worker pushes 101 to the lists of the followers.
    Celebrity 5, with six followers, posts tweet 102: no message. The
    timeline of follower 2 then shows 102 before 101, one tweet from the
    cache and one from the celebrity query. *)
Example hybrid_timeline :
  let (r1, wa) := post_tweet (mkTweetRequest (JNum 1) (JStr "hi")) calm w0 in
  let (v, wb) := deliver calm wa in
  let (r2, wc) := post_tweet (mkTweetRequest (JNum 5) (JStr "yo")) calm wb in
  let (r3, wd) := get_timeline "2" calm wc in
  queue wa = [mkJob 101 [2; 3; 4]]
  /\ v = Some Ack
  /\ queue wc = []
  /\ redis_get (redis wd) "timeline:2" = ["101"]
  /\ List.map id (page_of r3) = [102; 101]
  /\ exists timeline,
       r3 = Ok (TimelineJson "2" timeline (mkStats 1 1 2 2)).
Proof. vm_compute. repeat split. eexists. reflexivity. Qed.

(** ** Where the sort puts a tweet *)


Lemma filter_none {A} (f : A -> bool) (l : list A) :
  (forall y, In y l -> f y = false) -> List.filter f l = [].
Proof.
  induction l as [|y l IH]; intros H; simpl; [reflexivity |].
  rewrite (H y) by now left. apply IH. intros y' Hy'. apply H. now right.
Qed.


Lemma newest_first_inv (x : Tweet) (l : list Tweet) :
  newest_first (x :: l) ->
  newest_first l /\ forall y, In y l -> timestamp y <= timestamp x.
Proof.
  intros H. apply StronglySorted_inv in H as [Hl Hx]. split; [exact Hl |].
  now rewrite List.Forall_forall in Hx.
Qed.







Lemma NoDup_ids_NoDup (l : list Tweet) :
  List.NoDup (List.map id l) -> List.NoDup l.
Proof. apply NoDup_map_inv. Qed.




(** ** Deduplication, one tweet at a time *)



Lemma last_with_id_Some (j : Z) (l : list Tweet) (t : Tweet) :
  last_with_id j l = Some t -> id t = j /\ In t l.
Proof.
  unfold last_with_id. intros H. apply find_some in H as [Hin Hid].
  split; [now apply Z.eqb_eq | now apply in_rev].
Qed.







Section MapHead.
Context {V : Type}.

End MapHead.



Lemma uniqueTweets_elem (l : list Tweet) (t : Tweet) :
  In t (uniqueTweets l) <-> last_with_id (id t) l = Some t.
Proof.
  split; [apply uniqueTweets_last |].
  intros H. unfold last_with_id in H.
  rewrite <- map_get_entries, map_rev, <- new_Map_get in H.
  unfold map_get in H.
  destruct (List.find _ (new_Map (List.map entry l))) as [[k t']|] eqn:E;
    [| discriminate H].
  injection H as ->. apply find_some in E as [E _].
  unfold uniqueTweets, map_values. apply in_map_iff. now exists (k, t).
Qed.

(** ** The rank of a tweet among the deduplicated tweets *)


Lemma uniqueTweets_NoDup_list (l : list Tweet) : List.NoDup (uniqueTweets l).
Proof. apply NoDup_ids_NoDup, uniqueTweets_NoDup. Qed.











Section FilteredCache.
Variable p : Tweet -> bool.
Hypothesis p_by_id : forall a b, id a = id b -> p a = p b.





End FilteredCache.

(** ** Pages read from a smaller cache *)











Lemma in_ids_true (ids : list Z) (t : Tweet) :
  in_ids ids t = true <-> In (id t) ids.
Proof.
  unfold in_ids. rewrite existsb_exists. split.
  - intros (z & Hz & Heq). apply Z.eqb_eq in Heq. now subst z.
  - intros H. exists (id t). split; [exact H | apply Z.eqb_refl].
Qed.


Lemma pg_int4_array_in_Some (l : list string) (ids : list Z) :
  pg_int4_array_in l = Some ids ->
  forall z, In z ids <-> exists s, In s l /\ pg_int4_in s = Some z.
Proof.
  unfold pg_int4_array_in. rewrite mapM_Some.
  induction 1 as [|s z l ids Hs _ IH]; intros z'; simpl.
  - split; [tauto | intros (s & [] & _)].
  - rewrite IH. split.
    + intros [<- | (s' & Hin & Hp)]; [exists s; auto | exists s'; auto].
    + intros (s' & [<- | Hin] & Hp); [left; congruence | right; eauto].
Qed.



(** ** Reading the timeline when no call fails *)

Lemma redis_slice_all {A} (l : list A) : redis_slice l 0 (-1) = l.
Proof.
  destruct l as [|a l]; [reflexivity |].
  assert (Hlen : 0 < Z.of_nat (length (a :: l))) by (simpl length; lia).
  revert Hlen. generalize (a :: l). clear a l. intros l Hlen.
  unfold redis_slice. cbv zeta.
  change (0 <? 0) with false. change (-1 <? 0) with true. cbv iota.
  change (0 <? 0) with false. cbv iota.
  rewrite (proj2 (Z.ltb_ge _ _)) by lia.
  rewrite (proj2 (Z.leb_gt _ _)) by lia. cbn [orb].
  rewrite (proj2 (Z.leb_gt _ _)) by lia.
  replace (Z.to_nat (Z.of_nat (length l) + -1 - 0 + 1)) with (length l) by lia.
  change (drop (Z.to_nat 0) l) with l.
  apply firstn_all.
Qed.

Lemma select_tweets_by_ids_nil (d : Db) : select_tweets_by_ids d [] = [].
Proof.
  unfold select_tweets_by_ids, order_by_timestamp_desc.
  rewrite filter_none; [reflexivity |]. reflexivity.
Qed.

Lemma select_user_existsb (d : Db) (u : Z) :
  (length (select_user d u) =? 0)%nat = negb (existsb (Z.eqb u) (users d)).
Proof.
  unfold select_user. induction (users d) as [|x l IH]; simpl; [reflexivity |].
  rewrite (Z.eqb_sym u x). destruct (x =? u); [reflexivity | exact IH].
Qed.

Lemma get_timeline_calm (env : Env) (w : World) (userId : string) :
  calm_env env ->
  timeline_page env userId w
  = page_from (db w) userId (redis_get (redis w) (timelineKey userId)).
Proof.
  intros Hcalm.
  unfold timeline_page, page_from, get_timeline, fetchTweetIdsFromRedis,
    fetchCelebrityTweetsFromDB.
  destruct (String.eqb userId "") eqn:Eu.
  { apply String.eqb_eq in Eu. subst userId. reflexivity. }
  io_step. cbn [pg_param_int]. rewrite !Hcalm.
  destruct (pg_int4_in userId) as [u|]; [| reflexivity].
  io_step. rewrite select_user_existsb.
  destruct (existsb (Z.eqb u) (users (db w))); [| reflexivity].
  io_step. rewrite !Hcalm.
  unfold redis_lRange. rewrite redis_slice_all.
  destruct (redis_get (redis w) (timelineKey userId)) as [|s l] eqn:El.
  - cbn [length Nat.ltb Nat.leb]. io_step. rewrite !Hcalm. io_step.
    change (pg_int4_array_in []) with (Some (@nil Z)).
    cbn [page_of fst]. now rewrite select_tweets_by_ids_nil.
  - cbn [length Nat.ltb Nat.leb]. io_step. rewrite !Hcalm.
    destruct (pg_int4_array_in (s :: l)); io_step; [| reflexivity].
    rewrite !Hcalm. reflexivity.
Qed.

(** ** Duplicate delivery *)

Lemma calm_env_no_fault (env : Env) (from n : nat) :
  calm_env env -> no_fault env from n.
Proof. intros H i _. apply H. Qed.


(** What a message does to one list of the cache: nothing when none of
    its followers owns the list; otherwise the id of the tweet is in the
    list afterwards, with entries that were there before. *)
Lemma fan_out_cmds_list (t : Z) (fs : list Z) (key : string) (r : Redis) :
  let l := redis_get r key in
  let l' := redis_get (run_cmds (fan_out_cmds t fs) r) key in
  if targets key fs
  then In (js_toString t) l' /\ forall s, In s l' -> s = js_toString t \/ In s l
  else l' = l.
Proof.
  revert r. induction fs as [|f fs IH]; intros r; [reflexivity |].
  cbn [fan_out_cmds flat_map targets existsb]. fold (fan_out_cmds t fs).
  fold (targets key fs). rewrite run_cmds_app.
  specialize (IH (run_cmds (push_trim_cmds f t) r)). cbv zeta in IH |- *.
  destruct (String.eqb_spec (timelineKey (js_toString f)) key) as [<- | Hne].
  - cbn [orb]. rewrite push_trim_same in IH.
    destruct (targets (timelineKey (js_toString f)) fs).
    + destruct IH as [IH1 IH2]. split; [exact IH1 |].
      intros s Hs. apply IH2 in Hs as [Hs | Hs]; [now left |].
      apply In_take in Hs as [<- | Hs]; [now left | now right].
    + rewrite IH. split; [now left |].
      intros s Hs. apply In_take in Hs as [<- | Hs]; [now left | now right].
  - cbn [orb]. rewrite (push_trim_other r f t key Hne) in IH. exact IH.
Qed.





(** * Further properties of the code *)

(** ** The write path: what it leaves alone and what it leaves behind *)

(** Whatever the request and whatever fails, [POST /tweet] does not write
    to the cache and does not change [users] or [follows]; it adds at most
    one row to [tweets], with the next id of the sequence, and at most one
    message to the queue. *)
Theorem post_tweet_frame (env : Env) (w : World) (body : TweetRequest) :
  let w' := snd (post_tweet body env w) in
  redis w' = redis w
  /\ users (db w') = users (db w)
  /\ follows (db w') = follows (db w)
  /\ (tweets (db w') = tweets (db w)
      \/ exists t, tweets (db w') = tweets (db w) ++ [t]
                   /\ id t = next_id (db w))
  /\ (queue w' = queue w \/ exists j, queue w' = queue w ++ [j]).
Proof.
  unfold post_tweet. io_cases.
  all: cbn [snd db redis queue users follows tweets].
  all: repeat split; eauto.
Qed.

Import Cases.

(** The guard of [POST /tweet] tests the truth of the fields, not their
    presence: a [userId] that is [0], or a [text] that is the empty
    string, [null] or [false], is answered with status 400 like a missing
    one, and nothing is done. *)
Theorem post_tweet_rejects_falsy (env : Env) (w : World) (body : TweetRequest) :
  falsy_present (req_userId body) \/ falsy_present (req_text body) ->
  post_tweet body env w = (Ok (Json400 "userId and text are required"), w).
Proof.
  intros H. apply post_tweet_falsy_field.
  destruct H as [H | H]; [left | right];
    destruct H as [-> | [-> | [-> | ->]]]; reflexivity.
Qed.

Lemma post_tweet_rejects_falsy_witness :
  post_tweet (mkTweetRequest (JNum 0) (JStr "hello")) calm w0
  = (Ok (Json400 "userId and text are required"), w0).
Proof.
  apply (post_tweet_rejects_falsy calm w0 (mkTweetRequest (JNum 0) (JStr "hello"))).
  left. left. reflexivity.
Defined.

(** The insert is not undone. When the tweet is stored and a later call
    of the request fails, be it the count of the followers, their list,
    the channel or the publication, the answer is status 500, the tweet
    stays in the store, and no message is queued. *)
Theorem post_tweet_failure_keeps_tweet
    (env : Env) (w w' : World) (body : TweetRequest) (u : Z) (msg : string) :
  truthy (req_userId body) = true ->
  truthy (req_text body) = true ->
  pg_param_int (req_userId body) = Some u ->
  In u (users (db w)) ->
  fault env (calls w) = false ->
  post_tweet body env w = (Ok (Json500 msg), w') ->
  (exists t, tweets (db w') = tweets (db w) ++ [t]
             /\ id t = next_id (db w) /\ sender_id t = u)
  /\ queue w' = queue w.
Proof.
  intros Hu Ht Hp Hin Hf.
  destruct (truthy_pg_param_text _ Ht) as [txt Htxt].
  pose proof (existsb_eqb_In _ _ Hin) as Hex.
  unfold post_tweet. rewrite Hu, Ht. io_step.
  rewrite Hp, Htxt, Hf, Hex. io_cases.
  all: intros [= <- <-] || intros [=].
  all: cbn [db tweets queue]; split; eauto.
Qed.

Lemma post_tweet_failure_keeps_tweet_witness :
  (exists t,
      tweets (db (snd (post_tweet (mkTweetRequest (JNum 1) (JStr "hello"))
                         count_fails w0)))
      = tweets (db w0) ++ [t]
      /\ id t = next_id (db w0) /\ sender_id t = 1)
  /\ queue (snd (post_tweet (mkTweetRequest (JNum 1) (JStr "hello"))
                   count_fails w0))
     = queue w0.
Proof.
  apply (post_tweet_failure_keeps_tweet count_fails w0 _
           (mkTweetRequest (JNum 1) (JStr "hello")) 1 "Internal server error").
  - reflexivity.
  - reflexivity.
  - reflexivity.
  - simpl. tauto.
  - reflexivity.
  - reflexivity.
Defined.

Lemma existsb_eqb_not_In (u : Z) (l : list Z) :
  ~ In u l -> existsb (Z.eqb u) l = false.
Proof.
  intros H. destruct (existsb (Z.eqb u) l) eqn:E; [| reflexivity].
  exfalso. apply H. apply existsb_exists in E as (x & Hx & Heq).
  apply Z.eqb_eq in Heq. now subst x.
Qed.

(** A post in the name of a sender that is not in [users] is refused by
    the store: the answer is status 500, no tweet is stored and no
    message is queued. *)
Theorem post_tweet_unknown_sender
    (env : Env) (w : World) (body : TweetRequest) (u : Z) :
  truthy (req_userId body) = true ->
  truthy (req_text body) = true ->
  pg_param_int (req_userId body) = Some u ->
  ~ In u (users (db w)) ->
  exists w',
    post_tweet body env w = (Ok (Json500 "Internal server error"), w')
    /\ tweets (db w') = tweets (db w)
    /\ queue w' = queue w
    /\ redis w' = redis w.
Proof.
  intros Hu Ht Hp Hin.
  destruct (truthy_pg_param_text _ Ht) as [txt Htxt].
  pose proof (existsb_eqb_not_In _ _ Hin) as Hex.
  unfold post_tweet. rewrite Hu, Ht. io_step.
  rewrite Hp, Htxt, Hex.
  destruct (fault env (calls w)); io_step; eexists; split; try reflexivity;
    cbn; auto.
Qed.

Lemma post_tweet_unknown_sender_witness :
  exists w',
    post_tweet (mkTweetRequest (JNum 99) (JStr "hello")) calm w0
    = (Ok (Json500 "Internal server error"), w')
    /\ tweets (db w') = tweets (db w0)
    /\ queue w' = queue w0
    /\ redis w' = redis w0.
Proof.
  apply (post_tweet_unknown_sender calm w0
           (mkTweetRequest (JNum 99) (JStr "hello")) 99).
  - reflexivity.
  - reflexivity.
  - reflexivity.
  - simpl. intros H. repeat (destruct H as [H | H]; [discriminate H |]). exact H.
Defined.

Lemma store_ok_skip (us : list Z) (fs : list Follow) (ts : list Tweet) (n : Z) :
  store_ok (mkDb us fs ts n) -> store_ok (mkDb us fs ts (n + 1)).
Proof.
  intros [Hlt Hnd]. split; [| exact Hnd].
  intros t Ht. specialize (Hlt t Ht). cbn in *. lia.
Qed.

Lemma store_ok_insert (us : list Z) (fs : list Follow) (ts : list Tweet)
    (n u time : Z) (txt : string) :
  store_ok (mkDb us fs ts n) ->
  store_ok (mkDb us fs (ts ++ [mkTweet n u txt time]) (n + 1)).
Proof.
  intros [Hlt Hnd]. cbn in *. split; cbn.
  - intros t Ht. apply in_app_or in Ht as [Ht | [<- | []]].
    + specialize (Hlt t Ht). lia.
    + cbn. lia.
  - rewrite List.map_app. cbn.
    apply (Permutation_NoDup (l := n :: List.map id ts)).
    + apply Permutation_cons_append.
    + constructor; [| exact Hnd].
      intros Hin. apply in_map_iff in Hin as (t & Hid & Ht).
      specialize (Hlt t Ht). lia.
Qed.

Lemma store_ok_eta (d : Db) :
  store_ok d -> store_ok (mkDb (users d) (follows d) (tweets d) (next_id d)).
Proof. now destruct d. Qed.

(** The ids of the stored tweets stay distinct, and below the sequence,
    through every request of the write path, also one that fails. *)
Theorem post_tweet_store_ok (env : Env) (w : World) (body : TweetRequest) :
  store_ok (db w) -> store_ok (db (snd (post_tweet body env w))).
Proof.
  intros H. apply store_ok_eta in H.
  unfold post_tweet. io_cases.
  all: cbn [snd db].
  all: first [ now destruct (db w)
             | now apply store_ok_insert
             | now apply store_ok_skip ].
Qed.

Lemma store_ok_db0 : store_ok db0.
Proof. split; [intros t [] | constructor]. Qed.

Lemma post_tweet_store_ok_witness :
  store_ok (db (snd (post_tweet (mkTweetRequest (JNum 1) (JStr "hello"))
                       calm w0))).
Proof.
  apply (post_tweet_store_ok calm w0 (mkTweetRequest (JNum 1) (JStr "hello"))).
  split; [intros t [] | constructor].
Defined.

(** ** The read path: what a returned page is made of *)

(** [GET /timeline/:userId] reads only: whatever the request and whatever
    fails, the store, the cache, the queue and the channel are as
    before. *)
Theorem get_timeline_read_only (env : Env) (w : World) (userId : string) :
  let w' := snd (get_timeline userId env w) in
  db w' = db w /\ redis w' = redis w /\ queue w' = queue w
  /\ channel w' = channel w.
Proof.
  unfold get_timeline, fetchTweetIdsFromRedis, fetchCelebrityTweetsFromDB.
  io_cases. all: cbn [snd db redis queue channel]; auto.
Qed.

Lemma select_user_In (d : Db) (u : Z) :
  (length (select_user d u) =? 0)%nat = false -> In u (users d).
Proof.
  rewrite select_user_existsb. intros H. apply negb_false_iff in H.
  apply existsb_exists in H as (x & Hx & Heq). apply Z.eqb_eq in Heq.
  now subst x.
Qed.

(** A request that returns a page found the user, read the whole list of
    the consumer, resolved all its entries, ran the celebrity query, and
    merged the two results. *)
Lemma get_timeline_inv (env : Env) (w w' : World) (userId userId' : string)
    (timeline : list Tweet) (stats : Stats) :
  get_timeline userId env w = (Ok (TimelineJson userId' timeline stats), w') ->
  exists u ids,
    userId' = userId
    /\ pg_int4_in userId = Some u
    /\ In u (users (db w))
    /\ pg_int4_array_in (redis_get (redis w) (timelineKey userId)) = Some ids
    /\ timeline
       = merge_timeline (select_tweets_by_ids (db w) ids)
           (select_celebrity_tweets (db w) u CELEBRITY_THRESHOLD)
    /\ stats
       = mkStats (length (select_tweets_by_ids (db w) ids))
           (length (select_celebrity_tweets (db w) u CELEBRITY_THRESHOLD))
           (length (uniqueTweets
                      (select_tweets_by_ids (db w) ids
                       ++ select_celebrity_tweets (db w) u CELEBRITY_THRESHOLD)))
           (length timeline).
Proof.
  unfold get_timeline, fetchTweetIdsFromRedis, fetchCelebrityTweetsFromDB.
  destruct (String.eqb userId ""); io_step; [discriminate |].
  cbn [pg_param_int].
  destruct (fault env (calls w)); io_step; [discriminate |].
  destruct (pg_int4_in userId) as [u|]; io_step; [| discriminate].
  destruct (length (select_user (db w) u) =? 0)%nat eqn:Eu; io_step;
    [discriminate |].
  apply select_user_In in Eu.
  destruct (fault env (S (calls w))); io_step; [discriminate |].
  unfold redis_lRange. rewrite redis_slice_all.
  destruct (redis_get (redis w) (timelineKey userId)) as [|s l] eqn:El.
  - cbn [length Nat.ltb Nat.leb]. io_step.
    destruct (fault env (S (S (calls w)))); io_step; [discriminate |].
    intros [= <- <- <- _]. exists u, []. rewrite select_tweets_by_ids_nil.
    repeat split; auto.
  - cbn [length Nat.ltb Nat.leb]. io_step.
    destruct (fault env (S (S (calls w)))); io_step; [discriminate |].
    destruct (pg_int4_array_in (s :: l)) as [ids|]; io_step; [| discriminate].
    destruct (fault env (S (S (S (calls w))))); io_step; [discriminate |].
    intros [= <- <- <- _]. exists u, ids. repeat split; auto.
Qed.

Lemma uniqueTweets_length (l : list Tweet) :
  (length (uniqueTweets l) <= length l)%nat.
Proof.
  apply NoDup_incl_length; [apply uniqueTweets_NoDup_list |].
  intros t. apply uniqueTweets_In.
Qed.

Lemma merge_timeline_length_eq (cachedTweets celebrityTweets : list Tweet) :
  length (merge_timeline cachedTweets celebrityTweets)
  = Nat.min 20 (length (uniqueTweets (cachedTweets ++ celebrityTweets))).
Proof. unfold merge_timeline. now rewrite length_take, js_sort_length. Qed.

Lemma select_celebrity_tweets_length (d : Db) (u threshold : Z) :
  (length (select_celebrity_tweets d u threshold) <= 20)%nat.
Proof. unfold select_celebrity_tweets. rewrite length_take. lia. Qed.

(** The counts that come with a page fit the page: [returned] is its
    length, the smaller of twenty and [totalUnique]; [totalUnique] is at
    most the sum of [cachedTweets] and [celebrityTweets]; and
    [celebrityTweets] is at most twenty. *)
Theorem get_timeline_stats
    (env : Env) (w w' : World) (userId userId' : string)
    (timeline : list Tweet) (stats : Stats) :
  get_timeline userId env w = (Ok (TimelineJson userId' timeline stats), w') ->
  userId' = userId
  /\ stat_returned stats = length timeline
  /\ stat_returned stats = Nat.min 20 (stat_totalUnique stats)
  /\ (stat_totalUnique stats
      <= stat_cachedTweets stats + stat_celebrityTweets stats)%nat
  /\ (stat_celebrityTweets stats <= 20)%nat.
Proof.
  intros H. apply get_timeline_inv in H
    as (u & ids & -> & _ & _ & _ & -> & ->).
  cbn [stat_returned stat_totalUnique stat_cachedTweets stat_celebrityTweets].
  split; [reflexivity |]. split; [reflexivity |].
  split; [apply merge_timeline_length_eq |].
  split; [| apply select_celebrity_tweets_length].
  rewrite <- length_app. apply uniqueTweets_length.
Qed.

Lemma get_timeline_stats_witness :
  "2" = "2"
  /\ stat_returned (mkStats 1 1 2 2) = length [tweet_yo; tweet_hi]
  /\ stat_returned (mkStats 1 1 2 2)
     = Nat.min 20 (stat_totalUnique (mkStats 1 1 2 2))
  /\ (stat_totalUnique (mkStats 1 1 2 2)
      <= stat_cachedTweets (mkStats 1 1 2 2)
         + stat_celebrityTweets (mkStats 1 1 2 2))%nat
  /\ (stat_celebrityTweets (mkStats 1 1 2 2) <= 20)%nat.
Proof.
  apply (get_timeline_stats calm w_posted
           (snd (get_timeline "2" calm w_posted)) "2" "2"
           [tweet_yo; tweet_hi] (mkStats 1 1 2 2)).
  vm_compute. reflexivity.
Defined.

Lemma select_tweets_by_ids_In (d : Db) (ids : list Z) (t : Tweet) :
  In t (select_tweets_by_ids d ids) <-> In t (tweets d) /\ In (id t) ids.
Proof.
  unfold select_tweets_by_ids, order_by_timestamp_desc.
  rewrite js_sort_In, filter_In, in_ids_true. reflexivity.
Qed.

Lemma select_celebrity_tweets_In (d : Db) (u threshold : Z) (t : Tweet) :
  In t (select_celebrity_tweets d u threshold) ->
  In t (tweets d)
  /\ In (u, sender_id t) (follows d)
  /\ threshold <= count_followers d (sender_id t).
Proof.
  unfold select_celebrity_tweets, order_by_timestamp_desc.
  intros H. apply In_take in H. apply js_sort_In in H.
  apply in_flat_map in H as (t' & Ht' & H).
  apply in_map_iff in H as ([a b] & -> & H).
  apply filter_In in H as [H Hc]. unfold join_follows in H.
  apply filter_In in H as [Hf Hj].
  apply andb_true_iff in Hc as [Ha Hth].
  unfold follower_id, followee_id in *. cbn [fst snd] in *.
  apply Z.eqb_eq in Ha, Hj. apply Z.leb_le in Hth. subst a b.
  auto.
Qed.

(** Every tweet of a returned page is a tweet of the store, and it is
    there for one of two reasons: its id is an entry of the list of the
    consumer in the cache, or the consumer follows its sender and the
    sender has [CELEBRITY_THRESHOLD] followers or more. An entry of the
    cache without a tweet in the store shows nothing. *)
Theorem get_timeline_page_sound
    (env : Env) (w w' : World) (userId userId' : string)
    (timeline : list Tweet) (stats : Stats) (t : Tweet) :
  get_timeline userId env w = (Ok (TimelineJson userId' timeline stats), w') ->
  In t timeline ->
  In t (tweets (db w))
  /\ ((exists s, In s (redis_get (redis w) (timelineKey userId))
                 /\ pg_int4_in s = Some (id t))
      \/ (exists u, pg_int4_in userId = Some u
                    /\ In (u, sender_id t) (follows (db w))
                    /\ CELEBRITY_THRESHOLD
                       <= count_followers (db w) (sender_id t))).
Proof.
  intros H Ht. apply get_timeline_inv in H
    as (u & ids & _ & Hu & _ & Hids & -> & _).
  apply merge_timeline_In, uniqueTweets_In in Ht.
  apply in_app_or in Ht as [Ht | Ht].
  - apply select_tweets_by_ids_In in Ht as [Ht Hid]. split; [exact Ht |].
    left. now apply (pg_int4_array_in_Some _ _ Hids).
  - apply select_celebrity_tweets_In in Ht as (Ht & Hf & Hc).
    split; [exact Ht |]. right. exists u. auto.
Qed.

Lemma get_timeline_page_sound_witness :
  In tweet_hi (tweets (db w_posted))
  /\ ((exists s, In s (redis_get (redis w_posted) (timelineKey "2"))
                 /\ pg_int4_in s = Some (id tweet_hi))
      \/ (exists u, pg_int4_in "2" = Some u
                    /\ In (u, sender_id tweet_hi) (follows (db w_posted))
                    /\ CELEBRITY_THRESHOLD
                       <= count_followers (db w_posted) (sender_id tweet_hi))).
Proof.
  apply (get_timeline_page_sound calm w_posted
           (snd (get_timeline "2" calm w_posted)) "2" "2"
           [tweet_yo; tweet_hi] (mkStats 1 1 2 2) tweet_hi).
  - vm_compute. reflexivity.
  - simpl. right. left. reflexivity.
Defined.

Lemma nil_no_In {A} (l : list A) : (forall x, ~ In x l) -> l = [].
Proof. destruct l as [|x l]; [reflexivity |]. intros H. destruct (H x). now left. Qed.

Lemma select_celebrity_tweets_none (d : Db) (u threshold : Z) :
  (forall x, ~ In (u, x) (follows d)) ->
  select_celebrity_tweets d u threshold = [].
Proof.
  intros H. apply nil_no_In. intros t Ht.
  apply select_celebrity_tweets_In in Ht as (_ & Hf & _). now apply H in Hf.
Qed.

(** A consumer with an empty list in the cache who follows nobody gets an
    empty page and zero counts, not an error. Three calls are made: the
    user check, the read of the cache and the celebrity query; with
    nothing in the cache the store is not asked for cached tweets. *)
Theorem get_timeline_empty (env : Env) (w : World) (userId : string) (u : Z) :
  pg_int4_in userId = Some u ->
  In u (users (db w)) ->
  redis_get (redis w) (timelineKey userId) = [] ->
  (forall x, ~ In (u, x) (follows (db w))) ->
  no_fault env (calls w) 3 ->
  get_timeline userId env w
  = (Ok (TimelineJson userId [] (mkStats 0 0 0 0)),
     log_event (SelectCelebrityTweets u)
       (log_event (LRange (timelineKey userId))
          (log_event (SelectUser u) w))).
Proof.
  intros Hp Hu Hc Hf Hnf.
  assert (H0 : fault env (calls w) = false) by (apply Hnf; lia).
  assert (H1 : fault env (S (calls w)) = false) by (apply Hnf; lia).
  assert (H2 : fault env (S (S (calls w))) = false) by (apply Hnf; lia).
  unfold get_timeline, fetchTweetIdsFromRedis, fetchCelebrityTweetsFromDB.
  rewrite (pg_int4_in_nonempty _ _ Hp). io_step.
  cbn [pg_param_int]. rewrite Hp, H0. io_step.
  rewrite (select_user_present _ _ Hu). io_step. rewrite H1.
  unfold redis_lRange. rewrite redis_slice_all, Hc.
  cbn [length Nat.ltb Nat.leb]. io_step. rewrite H2.
  rewrite (select_celebrity_tweets_none _ _ _ Hf). reflexivity.
Qed.

Lemma get_timeline_empty_witness :
  get_timeline "1" calm w0
  = (Ok (TimelineJson "1" [] (mkStats 0 0 0 0)),
     log_event (SelectCelebrityTweets 1)
       (log_event (LRange (timelineKey "1"))
          (log_event (SelectUser 1) w0))).
Proof.
  apply (get_timeline_empty calm w0 "1" 1).
  - reflexivity.
  - simpl. tauto.
  - reflexivity.
  - intros x H. simpl in H.
    repeat (destruct H as [H | H]; [discriminate H |]). exact H.
  - apply no_fault_calm.
Defined.

(** ** The celebrity query and the cut to twenty *)

Lemma newest_first_app (l1 l2 : list Tweet) (a b : Tweet) :
  newest_first (l1 ++ l2) -> In a l1 -> In b l2 -> timestamp b <= timestamp a.
Proof.
  induction l1 as [|x l1 IH]; simpl; intros Hs Ha Hb; [destruct Ha |].
  apply newest_first_inv in Hs as [Hs Hx].
  destruct Ha as [<- | Ha].
  - apply Hx. apply in_or_app. now right.
  - now apply IH.
Qed.

(** The first [n] of a sorted list: a tweet of the list is among them,
    or they are [n] tweets none of which is older than it. *)
Lemma take_newest (n : nat) (s : list Tweet) (t : Tweet) :
  newest_first s ->
  In t s ->
  In t (take n s)
  \/ (length (take n s) = n
      /\ forall p, In p (take n s) -> timestamp t <= timestamp p).
Proof.
  intros Hs Ht. rewrite <- (firstn_skipn n s) in Hs, Ht.
  apply in_app_or in Ht as [Ht | Ht]; [now left | right].
  split.
  - rewrite length_take. apply Nat.min_l.
    destruct (Nat.le_gt_cases n (length s)) as [H | H]; [exact H |].
    rewrite skipn_all2 in Ht by lia. destruct Ht.
  - intros p Hp. now apply (newest_first_app _ _ p t Hs).
Qed.

Lemma select_celebrity_tweets_complete (d : Db) (u threshold : Z) (t : Tweet) :
  In t (tweets d) ->
  In (u, sender_id t) (follows d) ->
  threshold <= count_followers d (sender_id t) ->
  In t (select_celebrity_tweets d u threshold)
  \/ (length (select_celebrity_tweets d u threshold) = 20%nat
      /\ forall p, In p (select_celebrity_tweets d u threshold) ->
                   timestamp t <= timestamp p).
Proof.
  intros Ht Hf Hc. unfold select_celebrity_tweets, order_by_timestamp_desc.
  apply take_newest; [apply js_sort_newest_first |].
  apply js_sort_In. apply in_flat_map. exists t. split; [exact Ht |].
  apply in_map_iff. exists (u, sender_id t). split; [reflexivity |].
  apply filter_In. split.
  - unfold join_follows. apply filter_In. split; [exact Hf |].
    unfold followee_id. cbn. apply Z.eqb_refl.
  - unfold follower_id. cbn. rewrite Z.eqb_refl. cbn. now apply Z.leb_le.
Qed.

Lemma select_celebrity_tweets_newest_first (d : Db) (u threshold : Z) :
  newest_first (select_celebrity_tweets d u threshold).
Proof.
  unfold select_celebrity_tweets, order_by_timestamp_desc.
  apply newest_first_take, js_sort_newest_first.
Qed.

(** What [fetchCelebrityTweetsFromDB] answers holds at most twenty
    tweets, the newest first, each one a stored tweet of a sender that
    the user follows and that has [CELEBRITY_THRESHOLD] followers or
    more, as counted at the time of the read. *)
Theorem fetchCelebrityTweetsFromDB_sound
    (env : Env) (w w' : World) (userId : string) (rows : list Tweet) :
  fetchCelebrityTweetsFromDB userId env w = (Ok rows, w') ->
  (length rows <= 20)%nat
  /\ newest_first rows
  /\ exists u,
       pg_int4_in userId = Some u
       /\ forall t, In t rows ->
            In t (tweets (db w))
            /\ In (u, sender_id t) (follows (db w))
            /\ CELEBRITY_THRESHOLD <= count_followers (db w) (sender_id t).
Proof.
  unfold fetchCelebrityTweetsFromDB. io_step. cbn [pg_param_int].
  destruct (fault env (calls w)); io_step; [discriminate |].
  destruct (pg_int4_in userId) as [u|]; io_step; [| discriminate].
  intros [= <- _].
  split; [apply select_celebrity_tweets_length |].
  split; [apply select_celebrity_tweets_newest_first |].
  exists u. split; [reflexivity |].
  intros t. apply select_celebrity_tweets_In.
Qed.

Lemma fetchCelebrityTweetsFromDB_sound_witness :
  (length [tweet_yo] <= 20)%nat
  /\ newest_first [tweet_yo]
  /\ exists u,
       pg_int4_in "2" = Some u
       /\ forall t, In t [tweet_yo] ->
            In t (tweets (db w_posted))
            /\ In (u, sender_id t) (follows (db w_posted))
            /\ CELEBRITY_THRESHOLD
               <= count_followers (db w_posted) (sender_id t).
Proof.
  apply (fetchCelebrityTweetsFromDB_sound calm w_posted
           (snd (fetchCelebrityTweetsFromDB "2" calm w_posted)) "2" [tweet_yo]).
  vm_compute. reflexivity.
Defined.

(** No tweet of a followed celebrity is left out of the answer of
    [fetchCelebrityTweetsFromDB] unless the answer is full: a stored
    tweet of a sender that the user follows and that has
    [CELEBRITY_THRESHOLD] followers or more is in the answer, or the
    answer has twenty tweets none of which is older. *)
Theorem fetchCelebrityTweetsFromDB_complete
    (env : Env) (w w' : World) (userId : string) (u : Z)
    (rows : list Tweet) (t : Tweet) :
  fetchCelebrityTweetsFromDB userId env w = (Ok rows, w') ->
  pg_int4_in userId = Some u ->
  In t (tweets (db w)) ->
  In (u, sender_id t) (follows (db w)) ->
  CELEBRITY_THRESHOLD <= count_followers (db w) (sender_id t) ->
  In t rows
  \/ (length rows = 20%nat
      /\ forall p, In p rows -> timestamp t <= timestamp p).
Proof.
  unfold fetchCelebrityTweetsFromDB. io_step. cbn [pg_param_int].
  destruct (fault env (calls w)); io_step; [discriminate |].
  intros H Hp. rewrite Hp in H. revert H. io_step. intros [= <- _].
  apply select_celebrity_tweets_complete.
Qed.

Lemma fetchCelebrityTweetsFromDB_complete_witness :
  In tweet_yo [tweet_yo]
  \/ (length [tweet_yo] = 20%nat
      /\ forall p, In p [tweet_yo] -> timestamp tweet_yo <= timestamp p).
Proof.
  apply (fetchCelebrityTweetsFromDB_complete calm w_posted
           (snd (fetchCelebrityTweetsFromDB "2" calm w_posted)) "2" 2
           [tweet_yo] tweet_yo).
  - vm_compute. reflexivity.
  - reflexivity.
  - vm_compute. tauto.
  - vm_compute. tauto.
  - vm_compute. discriminate.
Defined.

Lemma last_with_id_In (l : list Tweet) (t : Tweet) :
  In t l -> exists t', last_with_id (id t) l = Some t'.
Proof.
  intros Ht. unfold last_with_id.
  destruct (List.find (fun t0 => id t0 =? id t) (rev l)) as [t'|] eqn:E;
    [now exists t' |].
  apply in_rev in Ht. pose proof (find_none _ _ E t Ht) as H. cbn in H.
  rewrite Z.eqb_refl in H. discriminate H.
Qed.

(** The merge loses no id and shows the newest. For every tweet that the
    cache or the celebrity query brings in, the record kept for its id,
    the last one with that id, is on the page, or the page has twenty
    tweets none of which is older than that record. *)
Theorem merge_timeline_newest
    (cachedTweets celebrityTweets : list Tweet) (t : Tweet) :
  In t (cachedTweets ++ celebrityTweets) ->
  exists t',
    last_with_id (id t) (cachedTweets ++ celebrityTweets) = Some t'
    /\ id t' = id t
    /\ (In t' (merge_timeline cachedTweets celebrityTweets)
        \/ (length (merge_timeline cachedTweets celebrityTweets) = 20%nat
            /\ forall p, In p (merge_timeline cachedTweets celebrityTweets) ->
                         timestamp t' <= timestamp p)).
Proof.
  intros Ht. destruct (last_with_id_In _ _ Ht) as [t' Hlast].
  exists t'. split; [exact Hlast |].
  pose proof (last_with_id_Some _ _ _ Hlast) as [Hid _].
  split; [exact Hid |].
  unfold merge_timeline. apply take_newest; [apply js_sort_newest_first |].
  apply js_sort_In, uniqueTweets_elem. now rewrite Hid.
Qed.

Lemma merge_timeline_newest_witness :
  exists t',
    last_with_id (id cache_copy) ([cache_copy] ++ [celebrity_copy]) = Some t'
    /\ id t' = id cache_copy
    /\ (In t' (merge_timeline [cache_copy] [celebrity_copy])
        \/ (length (merge_timeline [cache_copy] [celebrity_copy]) = 20%nat
            /\ forall p, In p (merge_timeline [cache_copy] [celebrity_copy]) ->
                         timestamp t' <= timestamp p)).
Proof.
  apply (merge_timeline_newest [cache_copy] [celebrity_copy] cache_copy).
  simpl. left. reflexivity.
Defined.

(** ** The worker: what a message touches and what it leaves *)

Lemma run_cmd_other (r : Redis) (c : RedisCmd) (key : string) :
  cmd_key c <> key -> redis_get (run_cmd r c) key = redis_get r key.
Proof.
  destruct c; cbn [run_cmd cmd_key]; intros H;
    unfold redis_lPush, redis_lTrim; now rewrite redis_get_set_ne.
Qed.

Lemma run_cmds_other (cmds : list RedisCmd) (r : Redis) (key : string) :
  (forall c, In c cmds -> cmd_key c <> key) ->
  redis_get (run_cmds cmds r) key = redis_get r key.
Proof.
  revert r. induction cmds as [|c cmds IH]; intros r H; [reflexivity |].
  cbn [run_cmds fold_left]. fold (run_cmds cmds (run_cmd r c)).
  rewrite IH by (intros c' Hc'; apply H; now right).
  apply run_cmd_other. apply H. now left.
Qed.

Lemma fan_out_cmds_keys (t : Z) (fs : list Z) (c : RedisCmd) :
  In c (fan_out_cmds t fs) ->
  exists f, In f fs /\ cmd_key c = timelineKey (js_toString f).
Proof.
  unfold fan_out_cmds. intros H. apply in_flat_map in H as (f & Hf & Hc).
  exists f. split; [exact Hf |].
  destruct Hc as [<- | [<- | []]]; reflexivity.
Qed.

Lemma targets_false (key : string) (fs : list Z) (f : Z) :
  targets key fs = false -> In f fs -> timelineKey (js_toString f) <> key.
Proof.
  unfold targets. intros H Hf Heq.
  assert (Ht : existsb (fun f => String.eqb (timelineKey (js_toString f)) key) fs
               = true).
  { apply existsb_exists. exists f. split; [exact Hf |].
    now apply String.eqb_eq. }
  congruence.
Qed.

Lemma targets_true (fs : list Z) (f : Z) :
  In f fs -> targets (timelineKey (js_toString f)) fs = true.
Proof.
  intros Hf. unfold targets. apply existsb_exists. exists f.
  split; [exact Hf | apply String.eqb_refl].
Qed.

(** The callback of the worker writes to the lists of the followers of
    the message and to nothing else: the store, the queue and the channel
    are as before and so is every other list of the cache, whether the
    message is acknowledged or fails half way. *)
Theorem on_message_frame (env : Env) (w : World) (message : Job) (key : string) :
  targets key (followers message) = false ->
  let w' := snd (on_message (Some message) env w) in
  db w' = db w /\ queue w' = queue w /\ channel w' = channel w
  /\ redis_get (redis w') key = redis_get (redis w) key.
Proof.
  intros Ht. unfold on_message, try_catch, io_bind.
  destruct (fan_out_run (tweetId message) (followers message) env w)
    as (w' & Hrun & Hdb & Hq & Hc & Hr & _).
  rewrite Hrun.
  assert (Hkey : redis_get (redis w') key = redis_get (redis w) key).
  { rewrite Hr. apply run_cmds_other. intros c Hc'. apply In_take in Hc'.
    apply fan_out_cmds_keys in Hc' as (f & Hf & ->).
    now apply (targets_false key (followers message)). }
  destruct (_ =? _)%nat; cbn [snd io_ret]; auto.
Qed.

Lemma on_message_frame_witness :
  let w' := snd (on_message (Some (mkJob 101 [2; 3; 4])) cache_flaky w1) in
  db w' = db w1 /\ queue w' = queue w1 /\ channel w' = channel w1
  /\ redis_get (redis w') "timeline:5" = redis_get (redis w1) "timeline:5".
Proof.
  apply (on_message_frame cache_flaky w1 (mkJob 101 [2; 3; 4]) "timeline:5").
  reflexivity.
Defined.








(** The redelivery above, computed: followers 2 and 3 were reached
    twice and have the id twice in their lists; follower 4 has it once. *)
Example redelivery_duplicates :
  let wb := snd (deliver third_push_fails (snd (deliver third_push_fails w1))) in
  redis_get (redis wb) "timeline:2" = ["101"; "101"]
  /\ redis_get (redis wb) "timeline:3" = ["101"; "101"]
  /\ redis_get (redis wb) "timeline:4" = ["101"].
Proof. vm_compute. auto. Qed.


(** ** The channel *)

(** [connectRabbitMQ] opens the channel once. A call that succeeds leaves
    the channel set, having made at most the one call that opens it; from
    then on every call returns the channel that is kept, without a call
    on the broker and without looking at [RABBITMQ_URL], so it cannot
    fail. *)
Theorem connectRabbitMQ_once (env : Env) (w w' : World) :
  connectRabbitMQ env w = (Ok tt, w') ->
  channel w' = true
  /\ (log w' = log w \/ log w' = log w ++ [Connect])
  /\ forall env', connectRabbitMQ env' w' = (Ok tt, w').
Proof.
  unfold connectRabbitMQ.
  destruct (channel w) eqn:Hc.
  - intros [= <-]. rewrite Hc. auto.
  - destruct (rabbitmq_url env); cbn [negb]; [| discriminate].
    io_step. destruct (fault env (calls w)); [discriminate |].
    intros [= <-]. cbn [channel log]. auto.
Qed.

Lemma connectRabbitMQ_once_witness :
  channel (snd (connectRabbitMQ calm w_closed)) = true
  /\ (log (snd (connectRabbitMQ calm w_closed)) = log w_closed
      \/ log (snd (connectRabbitMQ calm w_closed)) = log w_closed ++ [Connect])
  /\ forall env',
       connectRabbitMQ env' (snd (connectRabbitMQ calm w_closed))
       = (Ok tt, snd (connectRabbitMQ calm w_closed)).
Proof.
  apply (connectRabbitMQ_once calm w_closed (snd (connectRabbitMQ calm w_closed))).
  reflexivity.
Defined.

(** ** From a post to the page of a follower *)

Lemma js_sort_head_newest (x : Tweet) (l : list Tweet) :
  In x l ->
  (forall y, In y l -> y = x \/ timestamp y < timestamp x) ->
  exists tl, js_sort by_timestamp_desc l = x :: tl.
Proof.
  induction l as [|y r IH]; intros Hx Hall; [destruct Hx |].
  cbn [js_sort].
  assert (Hr : forall y', In y' r -> y' = x \/ timestamp y' < timestamp x).
  { intros y' Hy'. apply Hall. now right. }
  destruct (Hall y (or_introl eq_refl)) as [-> | Hy].
  - (* the tweet itself comes in: nothing sorted so far is newer *)
    destruct (js_sort by_timestamp_desc r) as [|h s] eqn:Es;
      [now exists [] |].
    cbn [sort_insert]. unfold by_timestamp_desc at 1.
    assert (Hh : In h r).
    { apply (js_sort_In by_timestamp_desc). rewrite Es. now left. }
    destruct (Z.ltb_spec 0 (timestamp h - timestamp x)) as [Hlt | _];
      [| now eexists].
    destruct (Hr h Hh) as [-> | Hlt']; lia.
  - destruct Hx as [-> | Hx]; [lia |].
    destruct (IH Hx Hr) as [tl Htl]. rewrite Htl.
    cbn [sort_insert]. unfold by_timestamp_desc at 1.
    destruct (Z.ltb_spec 0 (timestamp x - timestamp y)); [now eexists | lia].
Qed.

(** A tweet that is strictly newer than all the others that are merged,
    none of which has its id, is the first of the page. *)
Lemma merge_timeline_head (cachedTweets celebrityTweets : list Tweet) (x : Tweet) :
  In x (cachedTweets ++ celebrityTweets) ->
  (forall y, In y (cachedTweets ++ celebrityTweets) ->
             y = x \/ (id y <> id x /\ timestamp y < timestamp x)) ->
  exists rest, merge_timeline cachedTweets celebrityTweets = x :: rest.
Proof.
  intros Hx Hall. unfold merge_timeline.
  destruct (js_sort_head_newest x
              (uniqueTweets (cachedTweets ++ celebrityTweets))) as [tl Htl].
  - apply uniqueTweets_elem.
    destruct (last_with_id_In _ _ Hx) as [x' Hx']. rewrite Hx'.
    apply last_with_id_Some in Hx' as [Hid Hin].
    destruct (Hall x' Hin) as [-> | [Hne _]]; [reflexivity | contradiction].
  - intros y Hy. apply uniqueTweets_In in Hy.
    destruct (Hall y Hy) as [-> | [_ Hlt]]; auto.
  - rewrite Htl. cbn [take]. now eexists.
Qed.

Lemma post_tweet_calm
    (env : Env) (w : World) (body : TweetRequest) (u : Z) (txt : string) :
  calm_env env ->
  truthy (req_userId body) = true ->
  truthy (req_text body) = true ->
  pg_param_int (req_userId body) = Some u ->
  pg_param_text (req_text body) = Some txt ->
  In u (users (db w)) ->
  channel w = true \/ rabbitmq_url env = true ->
  let t := mkTweet (next_id (db w)) u txt (now env (calls w)) in
  let w' := snd (post_tweet body env w) in
  db w'
  = mkDb (users (db w)) (follows (db w)) (tweets (db w) ++ [t])
      (next_id (db w) + 1)
  /\ redis w' = redis w
  /\ queue w'
     = if count_followers (db w) u <? CELEBRITY_THRESHOLD
       then queue w ++ [mkJob (next_id (db w)) (list_follower_ids (db w) u)]
       else queue w.
Proof.
  intros Hcalm Hu Ht Hp Htxt Hin Hch.
  pose proof (existsb_eqb_In _ _ Hin) as Hex.
  unfold post_tweet. rewrite Hu, Ht. io_step.
  rewrite Hp, Htxt, !Hcalm, Hex. io_step. rewrite !Hcalm. io_step.
  change (count_followers _ u) with (count_followers (db w) u).
  destruct (count_followers (db w) u <? CELEBRITY_THRESHOLD); io_step.
  - destruct (channel w) eqn:Hc; io_step.
    + repeat (rewrite Hcalm; io_step). cbn. auto.
    + destruct Hch as [Hch | Hch]; [discriminate |]. rewrite Hch. io_step.
      repeat (rewrite Hcalm; io_step). cbn. auto.
  - cbn. auto.
Qed.

Lemma deliver_calm (env : Env) (w : World) (message : Job) (rest : list Job) :
  calm_env env ->
  queue w = message :: rest ->
  exists w',
    deliver env w = (Some Ack, w')
    /\ db w' = db w /\ queue w' = rest
    /\ redis w'
       = run_cmds (fan_out_cmds (tweetId message) (followers message)) (redis w).
Proof.
  intros Hcalm Hq. rewrite (deliver_unfold _ _ _ _ Hq).
  destruct (fan_out_run (tweetId message) (followers message) env
              (set_queue rest w)) as (w' & Hrun & Hdb & Hq' & _ & Hr & _).
  rewrite (proj2 (calls_ok_all env _ _)) in Hrun, Hr
    by now apply calm_env_no_fault.
  rewrite Nat.eqb_refl in Hrun. rewrite firstn_all in Hr. rewrite Hrun.
  exists w'. auto.
Qed.

Lemma pg_int4_array_in_all (l : list string) :
  (forall s, In s l -> exists z, pg_int4_in s = Some z) ->
  exists ids, pg_int4_array_in l = Some ids.
Proof.
  intros H. unfold pg_int4_array_in.
  assert (Hs : is_Some (mapM pg_int4_in l)).
  { apply mapM_is_Some. rewrite Forall_forall. intros s Hs.
    apply list_elem_of_In in Hs. destruct (H s Hs) as [z Hz].
    now exists z. }
  destruct Hs as [ids Hids]. now exists ids.
Qed.

(** The page read from a store whose last tweet is strictly newer than
    all the others, when the id of that tweet is in the list of the
    consumer or its sender is a celebrity that the consumer follows. *)
Lemma page_from_new_tweet
    (d : Db) (old : list Tweet) (f : Z) (l : list string) (t : Tweet) :
  tweets d = old ++ [t] ->
  (forall y, In y old -> id y <> id t /\ timestamp y < timestamp t) ->
  In f (users d) ->
  (forall s, In s l -> exists z, pg_int4_in s = Some z) ->
  In (js_toString (id t)) l
  \/ (In (f, sender_id t) (follows d)
      /\ CELEBRITY_THRESHOLD <= count_followers d (sender_id t)) ->
  exists rest, page_from d (js_toString f) l = t :: rest.
Proof.
  intros Htw Hold Hf Hl Hwhy. unfold page_from.
  rewrite pg_int4_in_js_toString, (existsb_eqb_In _ _ Hf).
  destruct (pg_int4_array_in_all l Hl) as [ids Hids]. rewrite Hids.
  assert (Hstored : In t (tweets d)).
  { rewrite Htw. apply in_or_app. right. now left. }
  assert (Hothers : forall y, In y (tweets d) ->
                      y = t \/ (id y <> id t /\ timestamp y < timestamp t)).
  { intros y Hy. rewrite Htw in Hy.
    apply in_app_or in Hy as [Hy | [<- | []]]; [right; now apply Hold | now left]. }
  apply merge_timeline_head.
  - apply in_or_app. destruct Hwhy as [Hin | [Hfol Hcnt]].
    + left. apply select_tweets_by_ids_In. split; [exact Hstored |].
      apply (pg_int4_array_in_Some _ _ Hids). exists (js_toString (id t)).
      split; [exact Hin | apply pg_int4_in_js_toString].
    + right.
      destruct (select_celebrity_tweets_complete d f CELEBRITY_THRESHOLD t
                  Hstored Hfol Hcnt) as [Hin | [Hlen Hall]]; [exact Hin |].
      destruct (select_celebrity_tweets d f CELEBRITY_THRESHOLD) as [|p ps] eqn:E;
        [discriminate Hlen |].
      assert (Hp : In p (select_celebrity_tweets d f CELEBRITY_THRESHOLD))
        by (rewrite E; now left).
      specialize (Hall p (or_introl eq_refl)).
      apply select_celebrity_tweets_In in Hp as (Hp & _ & _).
      destruct (Hothers p Hp) as [-> | [_ Hlt]]; [now left | lia].
  - intros y Hy. apply Hothers.
    apply in_app_or in Hy as [Hy | Hy].
    + now apply select_tweets_by_ids_In in Hy.
    + now apply select_celebrity_tweets_In in Hy.
Qed.

Lemma store_ok_older (d : Db) (now_ : Z) (t : Tweet) :
  store_ok d ->
  (forall y, In y (tweets d) -> timestamp y < now_) ->
  id t = next_id d -> timestamp t = now_ ->
  forall y, In y (tweets d) -> id y <> id t /\ timestamp y < timestamp t.
Proof.
  intros [Hlt _] Hnew Hid Hts y Hy. specialize (Hlt y Hy).
  specialize (Hnew y Hy). lia.
Qed.

(** From the post to the page, for a producer below the threshold. With
    no call failing: a user with fewer than [CELEBRITY_THRESHOLD]
    followers posts, the worker delivers the message, and a follower
    reads the timeline. The new tweet, stored with a time after that of
    every other tweet, is the first of the page of the follower. *)
Theorem narrow_post_reaches_follower
    (env : Env) (w : World) (body : TweetRequest) (u f : Z) :
  calm_env env ->
  truthy (req_userId body) = true ->
  truthy (req_text body) = true ->
  pg_param_int (req_userId body) = Some u ->
  In u (users (db w)) ->
  channel w = true \/ rabbitmq_url env = true ->
  count_followers (db w) u < CELEBRITY_THRESHOLD ->
  In f (list_follower_ids (db w) u) ->
  In f (users (db w)) ->
  queue w = [] ->
  store_ok (db w) ->
  (forall s, In s (redis_get (redis w) (timelineKey (js_toString f))) ->
             exists z, pg_int4_in s = Some z) ->
  (forall t, In t (tweets (db w)) -> timestamp t < now env (calls w)) ->
  let w1 := snd (post_tweet body env w) in
  let w2 := snd (deliver env w1) in
  exists tweet rest,
    timeline_page env (js_toString f) w2 = tweet :: rest
    /\ id tweet = next_id (db w)
    /\ sender_id tweet = u.
Proof.
  intros Hcalm Hu Ht Hp Hin Hch Hlt Hf Hfu Hq Hok Hcache Hnew w1 w2.
  destruct (truthy_pg_param_text _ Ht) as [txt Htxt].
  destruct (post_tweet_calm env w body u txt Hcalm Hu Ht Hp Htxt Hin Hch)
    as (Hdb1 & Hr1 & Hq1).
  fold w1 in Hdb1, Hr1, Hq1.
  apply Z.ltb_lt in Hlt. rewrite Hlt, Hq in Hq1. cbn [app] in Hq1.
  destruct (deliver_calm env w1 _ _ Hcalm Hq1) as (w' & Hdel & Hdb2 & _ & Hr2).
  assert (Hw2 : w2 = w') by (unfold w2; now rewrite Hdel). rewrite Hw2.
  cbn [tweetId followers] in Hr2.
  set (t := mkTweet (next_id (db w)) u txt (now env (calls w))) in *.
  exists t. rewrite (get_timeline_calm env w' _ Hcalm).
  pose proof (fan_out_cmds_list (next_id (db w)) (list_follower_ids (db w) u)
                (timelineKey (js_toString f)) (redis w1)) as Hlist.
  cbv zeta in Hlist. rewrite (targets_true _ _ Hf) in Hlist.
  destruct Hlist as [Hitem Hincl]. rewrite <- Hr2 in Hitem, Hincl.
  destruct (page_from_new_tweet (db w') (tweets (db w)) f
              (redis_get (redis w') (timelineKey (js_toString f))) t)
    as [rest Hrest].
  - rewrite Hdb2, Hdb1. reflexivity.
  - now apply (store_ok_older (db w) (now env (calls w)) t).
  - rewrite Hdb2, Hdb1. exact Hfu.
  - intros s Hs. apply Hincl in Hs as [-> | Hs].
    + exists (next_id (db w)). apply pg_int4_in_js_toString.
    + apply Hcache. now rewrite <- Hr1.
  - left. exact Hitem.
  - exists rest. auto.
Qed.

(** From the post to the page, for a celebrity. With no call failing: a
    user with [CELEBRITY_THRESHOLD] followers or more posts; no message
    is queued and the cache is not written; a follower who then reads the
    timeline has the new tweet, stored with a time after that of every
    other tweet, as the first of the page, through the celebrity
    query. *)
Theorem celebrity_post_reaches_follower
    (env : Env) (w : World) (body : TweetRequest) (u f : Z) :
  calm_env env ->
  truthy (req_userId body) = true ->
  truthy (req_text body) = true ->
  pg_param_int (req_userId body) = Some u ->
  In u (users (db w)) ->
  channel w = true \/ rabbitmq_url env = true ->
  CELEBRITY_THRESHOLD <= count_followers (db w) u ->
  In (f, u) (follows (db w)) ->
  In f (users (db w)) ->
  store_ok (db w) ->
  (forall s, In s (redis_get (redis w) (timelineKey (js_toString f))) ->
             exists z, pg_int4_in s = Some z) ->
  (forall t, In t (tweets (db w)) -> timestamp t < now env (calls w)) ->
  let w1 := snd (post_tweet body env w) in
  queue w1 = queue w
  /\ redis w1 = redis w
  /\ exists tweet rest,
       timeline_page env (js_toString f) w1 = tweet :: rest
       /\ id tweet = next_id (db w)
       /\ sender_id tweet = u.
Proof.
  intros Hcalm Hu Ht Hp Hin Hch Hge Hf Hfu Hok Hcache Hnew w1.
  destruct (truthy_pg_param_text _ Ht) as [txt Htxt].
  destruct (post_tweet_calm env w body u txt Hcalm Hu Ht Hp Htxt Hin Hch)
    as (Hdb1 & Hr1 & Hq1).
  fold w1 in Hdb1, Hr1, Hq1.
  rewrite (proj2 (Z.ltb_ge _ _) Hge) in Hq1.
  split; [exact Hq1 |]. split; [exact Hr1 |].
  set (t := mkTweet (next_id (db w)) u txt (now env (calls w))) in *.
  exists t. rewrite (get_timeline_calm env w1 _ Hcalm).
  destruct (page_from_new_tweet (db w1) (tweets (db w)) f
              (redis_get (redis w1) (timelineKey (js_toString f))) t)
    as [rest Hrest].
  - rewrite Hdb1. reflexivity.
  - now apply (store_ok_older (db w) (now env (calls w)) t).
  - rewrite Hdb1. exact Hfu.
  - rewrite Hr1. exact Hcache.
  - right. rewrite Hdb1. cbn [follows sender_id t]. split; [exact Hf |].
    exact Hge.
  - exists rest. auto.
Qed.

Lemma narrow_post_reaches_follower_witness :
  let w1 := snd (post_tweet (mkTweetRequest (JNum 1) (JStr "hi")) calm w0) in
  let w2 := snd (deliver calm w1) in
  exists tweet rest,
    timeline_page calm (js_toString 2) w2 = tweet :: rest
    /\ id tweet = next_id (db w0)
    /\ sender_id tweet = 1.
Proof.
  apply (narrow_post_reaches_follower calm w0
           (mkTweetRequest (JNum 1) (JStr "hi")) 1 2).
  - intros n. reflexivity.
  - reflexivity.
  - reflexivity.
  - reflexivity.
  - simpl. tauto.
  - left. reflexivity.
  - reflexivity.
  - simpl. tauto.
  - simpl. tauto.
  - reflexivity.
  - split; [intros t [] | constructor].
  - intros s [].
  - intros t [].
Defined.

Lemma celebrity_post_reaches_follower_witness :
  let w1 := snd (post_tweet (mkTweetRequest (JNum 5) (JStr "yo")) calm w0) in
  queue w1 = queue w0
  /\ redis w1 = redis w0
  /\ exists tweet rest,
       timeline_page calm (js_toString 2) w1 = tweet :: rest
       /\ id tweet = next_id (db w0)
       /\ sender_id tweet = 5.
Proof.
  apply (celebrity_post_reaches_follower calm w0
           (mkTweetRequest (JNum 5) (JStr "yo")) 5 2).
  - intros n. reflexivity.
  - reflexivity.
  - reflexivity.
  - reflexivity.
  - simpl. tauto.
  - left. reflexivity.
  - vm_compute. discriminate.
  - simpl. tauto.
  - simpl. tauto.
  - split; [intros t [] | constructor].
  - intros s [].
  - intros t [].
Defined.

(** ** The route [GET /followers/:userId] *)

Lemma sort_insert_sorted_by {A} (key : A -> Z) (x : A) (l : list A) :
  StronglySorted (fun a b => key a <= key b) l ->
  StronglySorted (fun a b => key a <= key b)
    (sort_insert (fun a b => key a - key b) x l).
Proof.
  induction l as [|y r IH]; intros Hs; simpl.
  - repeat constructor.
  - apply StronglySorted_inv in Hs as [Hr Hy].
    destruct (Z.ltb_spec 0 (key x - key y)) as [Hlt | Hge].
    + constructor; [now apply IH |].
      rewrite List.Forall_forall. intros z Hz.
      apply (Permutation_in _ (sort_insert_Permutation _ x r)) in Hz.
      destruct Hz as [<- | Hz]; [lia |].
      rewrite List.Forall_forall in Hy. now apply Hy.
    + constructor; [now constructor |].
      constructor; [lia |].
      rewrite List.Forall_forall in Hy |- *. intros z Hz.
      specialize (Hy z Hz). lia.
Qed.

Lemma js_sort_sorted_by {A} (key : A -> Z) (l : list A) :
  StronglySorted (fun a b => key a <= key b)
    (js_sort (fun a b => key a - key b) l).
Proof.
  induction l as [|x r IH]; simpl; [constructor |].
  now apply sort_insert_sorted_by.
Qed.

Lemma StronglySorted_map {A} (key : A -> Z) (l : list A) :
  StronglySorted (fun a b => key a <= key b) l ->
  StronglySorted Z.le (List.map key l).
Proof.
  induction 1 as [|x l _ IH Hx]; simpl; constructor; [exact IH |].
  rewrite List.Forall_forall in Hx |- *. intros z Hz.
  apply in_map_iff in Hz as (y & <- & Hy). now apply Hx.
Qed.

Section DirectoryFacts.
Variable username : Z -> string.

Lemma select_followers_In (d : Db) (u : Z) (row : UserRow) :
  In row (select_followers username d u)
  <-> snd row = username (fst row)
      /\ In (fst row) (users d)
      /\ In (fst row, u) (follows d).
Proof.
  unfold select_followers. rewrite js_sort_In, in_flat_map. split.
  - intros (x & Hx & H). apply in_map_iff in H as ([a b] & <- & H).
    apply filter_In in H as [Hf Hc]. apply andb_true_iff in Hc as [Ha Hb].
    unfold follower_id, followee_id in *. cbn [fst snd] in *.
    apply Z.eqb_eq in Ha, Hb. subst a b. auto.
  - destruct row as [x name]. cbn [fst snd]. intros (-> & Hx & Hf).
    exists x. split; [exact Hx |]. apply in_map_iff. exists (x, u).
    split; [reflexivity |]. apply filter_In. split; [exact Hf |].
    unfold follower_id, followee_id. cbn. now rewrite !Z.eqb_refl.
Qed.

Lemma list_follower_ids_In (d : Db) (u x : Z) :
  In x (list_follower_ids d u) <-> In (x, u) (follows d).
Proof.
  unfold list_follower_ids, follower_rows. rewrite in_map_iff. split.
  - intros ([a b] & <- & H). apply filter_In in H as [H Hb].
    unfold followee_id, follower_id in *. cbn in *. apply Z.eqb_eq in Hb.
    now subst b.
  - intros H. exists (x, u). split; [reflexivity |].
    apply filter_In. split; [exact H |]. unfold followee_id. cbn.
    apply Z.eqb_refl.
Qed.

(** The answer of [GET /followers/:userId] lists, in ascending order of
    id and each with its name, the users that follow the given user:
    every id listed is one that the write path would put in a message of
    that user, and every such id that is a user is listed. *)
Theorem get_followers_lists_followers
    (env : Env) (w w' : World) (userId : string) (rows : list UserRow) :
  get_followers username userId env w = (Ok (FollowersJson rows), w') ->
  exists u,
    pg_int4_in userId = Some u
    /\ ascending (List.map fst rows)
    /\ (forall row, In row rows -> snd row = username (fst row))
    /\ forall x, In x (List.map fst rows)
                 <-> In x (users (db w)) /\ In x (list_follower_ids (db w) u).
Proof.
  unfold get_followers, db_select_followers. io_step. cbn [pg_param_int].
  destruct (fault env (calls w)); io_step; [discriminate |].
  destruct (pg_int4_in userId) as [u|]; io_step; [| discriminate].
  intros [= <- _]. exists u. split; [reflexivity |].
  split; [apply StronglySorted_map, (js_sort_sorted_by fst) |].
  split; [intros row Hrow; now apply select_followers_In in Hrow |].
  intros x. rewrite list_follower_ids_In, in_map_iff. split.
  - intros (row & <- & Hrow). now apply select_followers_In in Hrow.
  - intros [Hx Hf]. exists (x, username x). split; [reflexivity |].
    apply select_followers_In. auto.
Qed.

(** [GET /followers/:userId] does not check that the user exists: for an
    id that is a number of the type [INTEGER] and that nobody follows, be
    it the id of a user or not, the answer is an empty list with status
    200, where [GET /timeline/:userId] answers 404 for an unknown
    user. *)
Theorem get_followers_nobody
    (env : Env) (w : World) (userId : string) (u : Z) :
  pg_int4_in userId = Some u ->
  int4_range u ->
  (forall x, ~ In (x, u) (follows (db w))) ->
  fault env (calls w) = false ->
  get_followers username userId env w
  = (Ok (FollowersJson []), log_event (ListFollowers u) w).
Proof.
  intros Hp _ Hnone Hf. unfold get_followers, db_select_followers. io_step.
  cbn [pg_param_int]. rewrite Hf, Hp. io_step.
  replace (select_followers username (db w) u) with (@nil UserRow);
    [reflexivity |].
  symmetry. apply nil_no_In. intros row Hrow.
  apply select_followers_In in Hrow as (_ & _ & H). now apply Hnone in H.
Qed.

(** [GET /followers/:userId] reads only, and answers with a list or with
    status 500: whatever the id and whatever fails, the store, the cache
    and the queue are as before. *)
Theorem get_followers_read_only (env : Env) (w : World) (userId : string) :
  let w' := snd (get_followers username userId env w) in
  db w' = db w /\ redis w' = redis w /\ queue w' = queue w.
Proof.
  unfold get_followers, db_select_followers. io_cases.
  all: cbn [snd db redis queue]; auto.
Qed.

End DirectoryFacts.

Lemma get_followers_lists_followers_witness :
  exists u,
    pg_int4_in "1" = Some u
    /\ ascending (List.map fst [(2, names 2); (3, names 3); (4, names 4)])
    /\ (forall row, In row [(2, names 2); (3, names 3); (4, names 4)] ->
                    snd row = names (fst row))
    /\ forall x, In x (List.map fst [(2, names 2); (3, names 3); (4, names 4)])
                 <-> In x (users (db w0)) /\ In x (list_follower_ids (db w0) u).
Proof.
  apply (get_followers_lists_followers names calm w0
           (snd (get_followers names "1" calm w0)) "1"
           [(2, names 2); (3, names 3); (4, names 4)]).
  vm_compute. reflexivity.
Defined.

Lemma get_followers_nobody_witness :
  get_followers names "99" calm w0
  = (Ok (FollowersJson []), log_event (ListFollowers 99) w0).
Proof.
  apply (get_followers_nobody names calm w0 "99" 99).
  - reflexivity.
  - unfold int4_range. lia.
  - intros x H. simpl in H.
    repeat (destruct H as [H | H]; [discriminate H |]). exact H.
  - reflexivity.
Defined.

(** ** The seed *)

Lemma followers_in_app (y : Z) (l1 l2 : list Follow) :
  followers_in y (l1 ++ l2) = (followers_in y l1 + followers_in y l2)%nat.
Proof. unfold followers_in. now rewrite List.filter_app, length_app. Qed.

Lemma followers_in_none (y : Z) (rows : list Follow) :
  (forall f, In f rows -> followee_id f <> y) -> followers_in y rows = O.
Proof.
  intros H. unfold followers_in. rewrite filter_none; [reflexivity |].
  intros f Hf. apply Z.eqb_neq. now apply H.
Qed.

Lemma followers_in_all (y : Z) (rows : list Follow) :
  (forall f, In f rows -> followee_id f = y) ->
  followers_in y rows = length rows.
Proof.
  intros H. unfold followers_in. f_equal.
  induction rows as [|f rows IH]; [reflexivity |]. simpl.
  rewrite (proj2 (Z.eqb_eq _ _) (H f (or_introl eq_refl))). f_equal.
  apply IH. intros f' Hf'. apply H. now right.
Qed.

Lemma followers_in_flat_map {A} (y : Z) (g : A -> list Follow) (l : list A) :
  followers_in y (flat_map g l)
  = list_sum (List.map (fun i => followers_in y (g i)) l).
Proof.
  induction l as [|a l IH]; [reflexivity |].
  cbn [flat_map List.map]. change (list_sum (?x :: ?l)) with (x + list_sum l)%nat.
  now rewrite followers_in_app, IH.
Qed.

Lemma count_seq (k a len : nat) :
  length (List.filter (fun j => (j =? k)%nat) (seq a len))
  = if ((a <=? k) && (k <? a + len))%nat then 1%nat else 0%nat.
Proof.
  revert a. induction len as [|len IH]; intros a.
  - cbn [seq List.filter length].
    destruct (Nat.leb_spec a k), (Nat.ltb_spec k (a + 0)); cbn; lia.
  - cbn [seq List.filter]. destruct (Nat.eqb_spec a k) as [-> | Hne].
    + cbn [length]. rewrite IH.
      destruct (Nat.leb_spec (S k) k); [lia |]. cbn [andb].
      destruct (Nat.leb_spec k k); [| lia].
      destruct (Nat.ltb_spec k (k + S len)); [reflexivity | lia].
    + rewrite IH.
      destruct (Nat.leb_spec (S a) k), (Nat.leb_spec a k),
        (Nat.ltb_spec k (S a + len)), (Nat.ltb_spec k (a + S len));
        cbn; lia.
Qed.

Lemma window_sum (k a m : nat) :
  (list_sum (List.map (in_window k) (seq a m)) <= Nat.min 3 (k - a))%nat.
Proof.
  revert a. induction m as [|m IH]; intros a; [cbn; lia |].
  cbn [seq List.map]. change (list_sum (?x :: ?l)) with (x + list_sum l)%nat.
  specialize (IH (S a)). unfold in_window at 1.
  destruct (Nat.leb_spec k (a + 3)), (Nat.ltb_spec a k); cbn [andb]; lia.
Qed.

Lemma list_sum_le {A} (c w : A -> nat) (l : list A) :
  (forall i, In i l -> (c i <= w i)%nat) ->
  (list_sum (List.map c l) <= list_sum (List.map w l))%nat.
Proof.
  induction l as [|a l IH]; intros H; [reflexivity |].
  cbn [List.map]. change (list_sum (?x :: ?l)) with (x + list_sum l)%nat.
  pose proof (H a (or_introl eq_refl)).
  pose proof (IH (fun i Hi => H i (or_intror Hi))). lia.
Qed.

Section SeedFacts.
Variables (celebrityId : Z) (normalUserIds : list Z).
Hypothesis fresh : List.NoDup (celebrityId :: normalUserIds).

Let at_index (i : nat) : Z := nth i normalUserIds 0.

Lemma at_index_In (i : nat) :
  (i < length normalUserIds)%nat -> In (at_index i) normalUserIds.
Proof. apply nth_In. Qed.

Lemma at_index_not_celebrity (i : nat) :
  (i < length normalUserIds)%nat -> at_index i <> celebrityId.
Proof.
  intros Hi Heq. inversion_clear fresh as [|? ? Hc _]. apply Hc.
  rewrite <- Heq. now apply at_index_In.
Qed.

Lemma at_index_inj (i k : nat) :
  (i < length normalUserIds)%nat -> (k < length normalUserIds)%nat ->
  at_index i = at_index k -> i = k.
Proof.
  intros Hi Hk. inversion_clear fresh as [|? ? _ Hnd].
  now apply (proj1 (NoDup_nth normalUserIds 0) Hnd).
Qed.

(** The rows of one normal user to the three that come after it: at most
    one of them points at the user of index [k], and none unless the
    user is one of the three before [k]. *)
Lemma followers_in_chain (k i : nat) :
  (k < length normalUserIds)%nat ->
  (followers_in (at_index k)
     (List.map (fun j => (at_index i, at_index j))
        (seq (i + 1) (Nat.min (length normalUserIds) (i + 4) - (i + 1))))
   <= in_window k i)%nat.
Proof.
  intros Hk. unfold followers_in.
  set (len := (Nat.min (length normalUserIds) (i + 4) - (i + 1))%nat).
  assert (Hmap : forall l,
             length (List.filter (fun f => followee_id f =? at_index k)
                       (List.map (fun j => (at_index i, at_index j)) l))
             = length (List.filter (fun j => at_index j =? at_index k) l)).
  { induction l as [|j l IH]; [reflexivity |]. cbn [List.map List.filter].
    unfold followee_id at 1. cbn [snd].
    destruct (at_index j =? at_index k); cbn [length]; now rewrite IH. }
  rewrite Hmap.
  rewrite (filter_ext_in _ (fun j => (j =? k)%nat)).
  - rewrite count_seq. unfold in_window.
    destruct (Nat.leb_spec (i + 1) k), (Nat.ltb_spec k (i + 1 + len)),
      (Nat.leb_spec k (i + 3)), (Nat.ltb_spec i k); cbn [andb]; lia.
  - intros j Hj. apply in_seq in Hj.
    assert (Hjn : (j < length normalUserIds)%nat) by lia.
    destruct (Nat.eqb_spec j k) as [-> | Hne]; [apply Z.eqb_refl |].
    apply Z.eqb_neq. intros Heq. apply Hne. now apply at_index_inj.
Qed.

Lemma followers_in_chains (k : nat) :
  (k < length normalUserIds)%nat ->
  (followers_in (at_index k)
     (flat_map
        (fun i =>
           List.map (fun j => (at_index i, at_index j))
             (seq (i + 1) (Nat.min (length normalUserIds) (i + 4) - (i + 1))))
        (seq 0 (length normalUserIds)))
   <= 3)%nat.
Proof.
  intros Hk. rewrite followers_in_flat_map.
  etransitivity; [apply list_sum_le; intros i _; now apply followers_in_chain |].
  etransitivity; [apply window_sum |]. lia.
Qed.

(** After the seed the celebrity has [numFollowers] followers and every
    normal user has fewer than [CELEBRITY_THRESHOLD], however many normal
    users there are: the write path counts the celebrity as one when
    [numFollowers] is five or more, and pushes the tweets of the others
    to the cache. The rows that were in [follows] before do not point at
    the new users. *)
Theorem seed_classification (d : Db) (numFollowers : nat) :
  (2 <= length normalUserIds)%nat ->
  (numFollowers <= length normalUserIds)%nat ->
  (forall f, In f (follows d) ->
             followee_id f <> celebrityId /\ ~ In (followee_id f) normalUserIds) ->
  let d' := seeded d celebrityId normalUserIds numFollowers in
  count_followers d' celebrityId = Z.of_nat numFollowers
  /\ forall y, In y normalUserIds -> count_followers d' y < CELEBRITY_THRESHOLD.
Proof.
  intros Hn Hnum Hold d'.
  assert (Hcount : forall y,
             count_followers d' y
             = Z.of_nat (followers_in y (follows d)
                         + followers_in y
                             (seed_follows celebrityId normalUserIds numFollowers))).
  { intros y. unfold count_followers, follower_rows, d', seeded. cbn [follows].
    now rewrite List.filter_app, length_app. }
  unfold seed_follows in Hcount. fold at_index in Hcount.
  split.
  - rewrite Hcount. f_equal.
    rewrite followers_in_none by (intros f Hf; now apply Hold).
    rewrite !followers_in_app.
    rewrite (followers_in_none celebrityId [_; _]).
    2:{ intros f [<- | [<- | []]]; unfold followee_id; cbn [snd];
        apply at_index_not_celebrity; lia. }
    rewrite followers_in_all by
      (intros f Hf; apply in_map_iff in Hf as (i & <- & _); reflexivity).
    rewrite length_map, length_seq.
    rewrite followers_in_none; [lia |].
    intros f Hf. apply in_flat_map in Hf as (i & _ & Hf).
    apply in_map_iff in Hf as (j & <- & Hj). apply in_seq in Hj.
    unfold followee_id. cbn [snd]. apply at_index_not_celebrity. lia.
  - intros y Hy. rewrite Hcount.
    rewrite followers_in_none by
      (intros f Hf Heq; apply (Hold f Hf); now rewrite Heq).
    destruct (In_nth _ _ 0 Hy) as (k & Hk & Hyk). fold (at_index k) in Hyk.
    subst y. rewrite !followers_in_app.
    assert (H1 : (followers_in (at_index k)
                    [(celebrityId, at_index 0%nat); (celebrityId, at_index 1%nat)]
                  <= 1)%nat).
    { unfold followers_in, followee_id. cbn [List.filter snd].
      destruct (Z.eqb_spec (at_index 0%nat) (at_index k)) as [H0 | H0];
        destruct (Z.eqb_spec (at_index 1%nat) (at_index k)) as [H1 | H1];
        cbn [length]; try lia.
      assert (0 = 1)%nat; [| lia].
      apply at_index_inj; [lia | lia | congruence]. }
    assert (H2 : followers_in (at_index k)
                   (List.map (fun i => (at_index i, celebrityId))
                      (seq 0 numFollowers)) = O).
    { apply followers_in_none. intros f Hf.
      apply in_map_iff in Hf as (i & <- & _). unfold followee_id. cbn [snd].
      intros Heq. now apply (at_index_not_celebrity k). }
    pose proof (followers_in_chains k Hk) as H3.
    unfold at_index in *. unfold CELEBRITY_THRESHOLD. lia.
Qed.

End SeedFacts.

Lemma seed_ids_fresh : List.NoDup (9 :: seed_ids).
Proof.
  change (9 :: seed_ids) with (List.map Z.of_nat (seq 9 21)).
  apply Finite.Injective_map_NoDup; [| apply seq_NoDup].
  intros a b. apply Nat2Z.inj.
Qed.

Lemma seed_classification_witness :
  count_followers (seeded db0 9 seed_ids 12) 9 = Z.of_nat 12
  /\ forall y, In y seed_ids ->
               count_followers (seeded db0 9 seed_ids 12) y < CELEBRITY_THRESHOLD.
Proof.
  apply (seed_classification 9 seed_ids seed_ids_fresh db0 12).
  - vm_compute. lia.
  - vm_compute. lia.
  - intros f Hf. vm_compute in Hf.
    repeat destruct Hf as [<- | Hf]; try contradiction;
      (split; [discriminate | vm_compute; intuition discriminate]).
Defined.
